(** * NestedSetCodec: a shallow embedding and its verification

    The development follows
    [src/main/java/com/google/devtools/build/lib/collect/nestedset/NestedSetCodec.java].

    Java objects are modelled by an explicit heap of [Object[]] arrays, so
    that object identity (the address of an array) is distinct from
    structural equality.  The process-wide [digestToChild] cache is a finite
    map that is threaded through every deserialization.  Bytes are integers
    in [0, 256); Java [int] and [long] values are integers with their
    wrap-around written out. *)

From Stdlib Require Import ZArith List Lia Bool.
From stdpp Require Import base option list gmap.
Import ListNotations.

Local Open Scope Z_scope.

(** ** Results of fallible Java code *)

(** The exceptions the codec and the libraries below it can raise. *)
Inductive exn : Type :=
| IllegalStateException        (* Preconditions.checkState *)
| NullPointerException         (* Preconditions.checkNotNull *)
| InvalidProtocolBufferException (* CodedInputStream: truncated, malformed varint, negative size *)
| SerializationException       (* payload codec, enum codec *)
| StackOverflowError            (* recursion deeper than the available stack *)
| OutOfMemoryError.             (* a byte[] of 2^31 bytes or more *)

Inductive res (A : Type) : Type :=
| Ok (a : A)
| Throw (e : exn).
Arguments Ok {A} a.
Arguments Throw {A} e.

Definition res_bind {A B : Type} (m : res A) (k : A -> res B) : res B :=
  match m with
  | Ok a => k a
  | Throw e => Throw e
  end.

#[global] Instance res_mbind : MBind res := fun A B k m => res_bind m k.
#[global] Instance res_mret : MRet res := fun A a => Ok a.

(** ** Machine integers *)

Definition to_int32 (z : Z) : Z := (z + 2 ^ 31) mod 2 ^ 32 - 2 ^ 31.
Definition to_int64 (z : Z) : Z := (z + 2 ^ 63) mod 2 ^ 64 - 2 ^ 63.

(** ** The protobuf wire primitives used by the codec

    [CodedOutputStream] and [CodedInputStream] belong to the protobuf
    library; they are modelled after its documented wire format. *)
Module Wire.

(** [writeUInt32NoTag] / [writeUInt64NoTag]:
    [while (true) { if ((value & ~0x7F) == 0) { write(value); return; }
                    else { write((value & 0x7F) | 0x80); value >>>= 7; } }]
    [n] bounds the number of bytes (5 for 32 bits, 10 for 64 bits);
    [value] is the unsigned reading of the Java value. *)
Fixpoint writeVarint (n : nat) (value : Z) : list Z :=
  match n with
  | O => []
  | S n' =>
      if Z.land value (Z.lnot 127) =? 0 then [value]
      else Z.lor (Z.land value 127) 128 :: writeVarint n' (Z.shiftr value 7)
  end.

Definition writeUInt32NoTag (value : Z) : list Z :=
  writeVarint 5 (value mod 2 ^ 32).

Definition writeUInt64NoTag (value : Z) : list Z :=
  writeVarint 10 (value mod 2 ^ 64).

(** [writeInt32NoTag]: non-negative values as 32-bit varints, negative
    ones sign-extended to 64 bits. *)
Definition writeInt32NoTag (value : Z) : list Z :=
  if 0 <=? value then writeUInt32NoTag value else writeUInt64NoTag value.

Definition writeBoolNoTag (value : bool) : list Z :=
  [if value then 1 else 0].

(** [writeByteArrayNoTag]: the length as a varint, then the bytes. *)
Definition writeByteArrayNoTag (value : list Z) : list Z :=
  writeUInt32NoTag (Z.of_nat (length value)) ++ value.

(** [readRawVarint64SlowPath]:
    [for (shift = 0; shift < 64; shift += 7) { b = readRawByte();
       result |= (long) (b & 0x7F) << shift;
       if ((b & 0x80) == 0) return result; }
     throw malformedVarint();] *)
Fixpoint readRawVarint64SlowPath (n : nat) (shift result : Z) (buf : list Z)
  : res (Z * list Z) :=
  match n with
  | O => Throw InvalidProtocolBufferException
  | S n' =>
      match buf with
      | [] => Throw InvalidProtocolBufferException
      | b :: rest =>
          let result := Z.lor result (Z.shiftl (Z.land b 127) shift) in
          if Z.land b 128 =? 0 then Ok (to_int64 result, rest)
          else readRawVarint64SlowPath n' (shift + 7) result rest
      end
  end.

Definition readRawVarint64 (buf : list Z) : res (Z * list Z) :=
  readRawVarint64SlowPath 10 0 0 buf.

(** [readRawVarint32]: the low 32 bits of the varint. *)
Definition readRawVarint32 (buf : list Z) : res (Z * list Z) :=
  '(v, rest) ← readRawVarint64 buf;
  Ok (to_int32 v, rest).

Definition readInt32 := readRawVarint32.

Definition readBool (buf : list Z) : res (bool * list Z) :=
  '(v, rest) ← readRawVarint64 buf;
  Ok (negb (v =? 0), rest).

(** [readBytes]: a varint size, then that many bytes; a negative size or
    a size beyond the end of the buffer is refused. *)
Definition readBytes (buf : list Z) : res (list Z * list Z) :=
  '(size, rest) ← readRawVarint32 buf;
  if (0 <=? size) && (size <=? Z.of_nat (length rest))
  then Ok (take (Z.to_nat size) rest, drop (Z.to_nat size) rest)
  else Throw InvalidProtocolBufferException.

End Wire.

(** ** MD5 ([Hashing.md5()]), RFC 1321 *)
Module MD5.

Definition w32 (z : Z) : Z := z mod 2 ^ 32.

Definition leftrotate (x c : Z) : Z :=
  w32 (Z.lor (Z.shiftl x c) (Z.shiftr x (32 - c))).

Definition s : list Z :=
  [7; 12; 17; 22; 7; 12; 17; 22; 7; 12; 17; 22; 7; 12; 17; 22;
   5; 9; 14; 20; 5; 9; 14; 20; 5; 9; 14; 20; 5; 9; 14; 20;
   4; 11; 16; 23; 4; 11; 16; 23; 4; 11; 16; 23; 4; 11; 16; 23;
   6; 10; 15; 21; 6; 10; 15; 21; 6; 10; 15; 21; 6; 10; 15; 21].

Definition K : list Z :=
  [3614090360; 3905402710; 606105819; 3250441966; 4118548399; 1200080426;
   2821735955; 4249261313; 1770035416; 2336552879; 4294925233; 2304563134;
   1804603682; 4254626195; 2792965006; 1236535329; 4129170786; 3225465664;
   643717713; 3921069994; 3593408605; 38016083; 3634488961; 3889429448;
   568446438; 3275163606; 4107603335; 1163531501; 2850285829; 4243563512;
   1735328473; 2368359562; 4294588738; 2272392833; 1839030562; 4259657740;
   2763975236; 1272893353; 4139469664; 3200236656; 681279174; 3936430074;
   3572445317; 76029189; 3654602809; 3873151461; 530742520; 3299628645;
   4096336452; 1126891415; 2878612391; 4237533241; 1700485571; 2399980690;
   4293915773; 2240044497; 1873313359; 4264355552; 2734768916; 1309151649;
   4149444226; 3174756917; 718787259; 3951481745].

Definition not32 (x : Z) : Z := Z.lxor x (2 ^ 32 - 1).

(** Little-endian bytes of a 32-bit word and back. *)
Definition word_bytes (x : Z) : list Z :=
  [Z.land x 255; Z.land (Z.shiftr x 8) 255;
   Z.land (Z.shiftr x 16) 255; Z.land (Z.shiftr x 24) 255].

Fixpoint words_of (n : nat) (bs : list Z) : list Z :=
  match n with
  | O => []
  | S n' =>
      match bs with
      | b0 :: b1 :: b2 :: b3 :: rest =>
          (Z.land b0 255 + Z.shiftl (Z.land b1 255) 8
           + Z.shiftl (Z.land b2 255) 16 + Z.shiftl (Z.land b3 255) 24)
            :: words_of n' rest
      | _ => []
      end
  end.

(** One of the 64 operations of a round. *)
Definition step (M : list Z) (st : Z * Z * Z * Z) (i : nat) : Z * Z * Z * Z :=
  let '(A, B, C, D) := st in
  let '(F, g) :=
    if (i <? 16)%nat then
      (Z.lor (Z.land B C) (Z.land (not32 B) D), i)
    else if (i <? 32)%nat then
      (Z.lor (Z.land D B) (Z.land (not32 D) C), ((5 * i + 1) mod 16)%nat)
    else if (i <? 48)%nat then
      (Z.lxor B (Z.lxor C D), ((3 * i + 5) mod 16)%nat)
    else
      (Z.lxor C (Z.lor B (not32 D)), ((7 * i) mod 16)%nat) in
  let F := w32 (F + A + nth i K 0 + nth g M 0) in
  (D, w32 (B + leftrotate F (nth i s 0)), B, C).

Definition chunk (st : Z * Z * Z * Z) (block : list Z) : Z * Z * Z * Z :=
  let '(a0, b0, c0, d0) := st in
  let '(A, B, C, D) := fold_left (step (words_of 16 block)) (seq 0 64) st in
  (w32 (a0 + A), w32 (b0 + B), w32 (c0 + C), w32 (d0 + D)).

Fixpoint chunks (n : nat) (st : Z * Z * Z * Z) (bs : list Z) : Z * Z * Z * Z :=
  match n with
  | O => st
  | S n' => chunks n' (chunk st (take 64 bs)) (drop 64 bs)
  end.

(** Padding: a 1 bit, zeros up to 56 mod 64, the bit length on 64 bits. *)
Definition pad (msg : list Z) : list Z :=
  let len := Z.of_nat (length msg) in
  let zeros := Z.to_nat ((55 - len) mod 64) in
  let bits := (8 * len) mod 2 ^ 64 in
  msg ++ [128] ++ repeat 0 zeros
      ++ word_bytes (w32 bits) ++ word_bytes (Z.shiftr bits 32).

Definition md5 (msg : list Z) : list Z :=
  let padded := pad msg in
  let '(a, b, c, d) :=
    chunks (length padded / 64)
           (1732584193, 4023233417, 2562383102, 271733878) padded in
  word_bytes a ++ word_bytes b ++ word_bytes c ++ word_bytes d.

End MD5.

(** ** Objects, arrays and the heap *)

(** [Order]: the order-kind enumeration, in declaration order. *)
Inductive Order : Type :=
| STABLE_ORDER | COMPILE_ORDER | LINK_ORDER | NAIVE_LINK_ORDER.

Abbreviation addr := nat.

(** A Java [Object] as the codec observes it: the [NestedSet.EMPTY_CHILDREN]
    sentinel, an element of type [T] (tested by [!(x instanceof Object[])]),
    or a reference to an [Object[]], identified by its address. *)
Inductive Object (T : Type) : Type :=
| EMPTY_CHILDREN
| Elem (p : T)
| Arr (a : addr).
Arguments EMPTY_CHILDREN {T}.
Arguments Elem {T} p.
Arguments Arr {T} a.

(** Modelled from the spec: [NestedSet] itself is not among the sources;
    a nested set is the pair (order-kind, children node), [rawChildren()]
    and [getOrder()] are its projections, and [order.emptySet()] is the
    nested set of that order whose children are the EMPTY sentinel. *)
Record NestedSet (T : Type) : Type := mkNestedSet {
  getOrder : Order;
  rawChildren : Object T
}.
Arguments mkNestedSet {T} _ _.
Arguments getOrder {T} _.
Arguments rawChildren {T} _.

Definition emptySet {T : Type} (order : Order) : NestedSet T :=
  mkNestedSet order EMPTY_CHILDREN.

(** Modelled from the spec: [EnumCodec] is not among the sources; the
    order-kind is encoded by its ordinal, an ordinal outside the enumeration
    is refused. *)
Module orderCodec.
Definition ordinal (o : Order) : Z :=
  match o with
  | STABLE_ORDER => 0 | COMPILE_ORDER => 1 | LINK_ORDER => 2 | NAIVE_LINK_ORDER => 3
  end.

Definition serialize (o : Order) : list Z := Wire.writeInt32NoTag (ordinal o).

Definition deserialize (codedIn : list Z) : res (Order * list Z) :=
  '(n, codedIn) ← Wire.readRawVarint32 codedIn;
  if n =? 0 then Ok (STABLE_ORDER, codedIn)
  else if n =? 1 then Ok (COMPILE_ORDER, codedIn)
  else if n =? 2 then Ok (LINK_ORDER, codedIn)
  else if n =? 3 then Ok (NAIVE_LINK_ORDER, codedIn)
  else Throw SerializationException.
End orderCodec.

(** A heap: the contents of each [Object[]], by address. *)
Abbreviation heap T := (list (list (Object T))).

(** [Preconditions.checkNotNull] and [Preconditions.checkState]. *)
Definition checkNotNull {A : Type} (x : option A) : res A :=
  match x with
  | Some a => Ok a
  | None => Throw NullPointerException
  end.

Definition checkState (b : bool) : res unit :=
  if b then Ok tt else Throw IllegalStateException.

(** ** The codec *)
Section NestedSetCodec.

(** The element type and the payload codec behind [SerializationContext]
    and [DeserializationContext]: [ctx_serialize] gives the bytes written
    for an element, [ctx_deserialize] consumes an element from the input
    and returns the rest. *)
Context {T : Type}.
Variable T_equals : T -> T -> bool.
Variable ctx_serialize : T -> res (list Z).
Variable ctx_deserialize : list Z -> res (T * list Z).

(** [SerializationConstants.shouldSerializeNestedSet]. *)
Variable shouldSerializeNestedSet : bool.


Definition array (h : heap T) (a : addr) : list (Object T) :=
  default [] (h !! a).

(** [Object.equals]: identity on arrays and on the sentinel, [T.equals]
    on elements. *)
Definition Object_equals (x y : Object T) : bool :=
  match x, y with
  | EMPTY_CHILDREN, EMPTY_CHILDREN => true
  | Elem p, Elem q => T_equals p q
  | Arr a, Arr b => Nat.eqb a b
  | _, _ => false
  end.

(** [LinkedHashSet]: a list in insertion order. *)
Definition contains (sets : list (Object T)) (x : Object T) : bool :=
  existsb (Object_equals x) sets.

Definition add (sets : list (Object T)) (x : Object T) : list (Object T) :=
  if contains sets x then sets else sets ++ [x].

(** [for (Object child : children) { ... }] over a visit that may throw. *)
Fixpoint forEach (visit : list (Object T) -> Object T -> res (list (Object T)))
    (sets : list (Object T)) (cs : list (Object T)) : res (list (Object T)) :=
  match cs with
  | [] => Ok sets
  | child :: cs' =>
      match visit sets child with
      | Ok sets => forEach visit sets cs'
      | Throw e => Throw e
      end
  end.

(** [dfs]; [fuel] bounds the depth of the Java call stack. *)
Fixpoint dfs (fuel : nat) (h : heap T) (sets : list (Object T)) (children : Object T)
  : res (list (Object T)) :=
  match fuel with
  | O => Throw StackOverflowError
  | S fuel' =>
      if contains sets children then Ok sets
      else
        sets ← match children with
               | Arr a =>
                   forEach (fun sets child =>
                              match child with
                              | Arr _ => dfs fuel' h sets child
                              | _ => Ok sets
                              end) sets (array h a)
               | _ => Ok sets
               end;
        Ok (add sets children)
  end.

Definition getTopologicallySortedChildren (fuel : nat) (h : heap T)
    (nestedSet : NestedSet T) : res (list (Object T)) :=
  dfs fuel h [] (rawChildren nestedSet).

Definition createNestedSet (order : Order) (children : Object T) : NestedSet T :=
  match children with
  | EMPTY_CHILDREN => emptySet order
  | _ => mkNestedSet order children
  end.

(** *** Writing *)

(** One iteration of the loop of [serializeMultiItemChildArray].  The
    table is keyed by identity; only arrays are ever looked up.  The
    sentinel is not an element: the payload codec refuses it. *)
Definition serializeEntry (childToDigest : gmap addr (list Z)) (child : Object T)
  : res (list Z) :=
  match child with
  | Arr a =>
      digest ← checkNotNull (childToDigest !! a);
      Ok (Wire.writeBoolNoTag true ++ Wire.writeByteArrayNoTag digest)
  | Elem p =>
      bs ← ctx_serialize p;
      Ok (Wire.writeBoolNoTag false ++ bs)
  | EMPTY_CHILDREN => Throw SerializationException
  end.

Fixpoint serializeEntries (childToDigest : gmap addr (list Z))
    (children : list (Object T)) : res (list Z) :=
  match children with
  | [] => Ok []
  | child :: rest =>
      e ← serializeEntry childToDigest child;
      r ← serializeEntries childToDigest rest;
      Ok (e ++ r)
  end.

Definition serializeMultiItemChildArray (children : list (Object T))
    (childToDigest : gmap addr (list Z)) : res (list Z) :=
  r ← serializeEntries childToDigest children;
  Ok (Wire.writeInt32NoTag (Z.of_nat (length children)) ++ r).

Definition serializeSingleItemChildArray (children : T) : res (list Z) :=
  bs ← ctx_serialize children;
  Ok (Wire.writeInt32NoTag 1 ++ bs).

(** The bytes streamed to [childCodedOut], i.e. the body of a frame. *)
Definition serializeBody (h : heap T) (children : Object T)
    (childToDigest : gmap addr (list Z)) : res (list Z) :=
  match children with
  | Arr a => serializeMultiItemChildArray (array h a) childToDigest
  | Elem p => serializeSingleItemChildArray p
  | EMPTY_CHILDREN => Ok (Wire.writeInt32NoTag 0)
  end.

(** [childToDigest.put(children, digest)]: an entry under a key that is
    not an array is never looked up, and is left out. *)
Definition put (childToDigest : gmap addr (list Z)) (children : Object T)
    (digest : list Z) : gmap addr (list Z) :=
  match children with
  | Arr a => <[a := digest]> childToDigest
  | _ => childToDigest
  end.

(** [serializeOneNestedSet]: the frame written to [codedOut] and the
    updated table.  A [byte[]] holds fewer than 2^31 bytes. *)
Definition serializeOneNestedSet (h : heap T) (children : Object T)
    (childToDigest : gmap addr (list Z)) : res (list Z * gmap addr (list Z)) :=
  childBytes ← serializeBody h children childToDigest;
  if 2 ^ 31 <=? Z.of_nat (length childBytes) then Throw OutOfMemoryError
  else
    let digest := MD5.md5 childBytes in
    Ok (Wire.writeByteArrayNoTag digest ++ Wire.writeByteArrayNoTag childBytes,
        put childToDigest children digest).

Fixpoint serializeAll (h : heap T) (topoSortedChildren : list (Object T))
    (childToDigest : gmap addr (list Z)) : res (list Z) :=
  match topoSortedChildren with
  | [] => Ok []
  | children :: rest =>
      '(frame, childToDigest) ← serializeOneNestedSet h children childToDigest;
      r ← serializeAll h rest childToDigest;
      Ok (frame ++ r)
  end.

Definition serialize (fuel : nat) (h : heap T) (obj : NestedSet T) : res (list Z) :=
  if negb shouldSerializeNestedSet then Ok []
  else
    topoSortedChildren ← getTopologicallySortedChildren fuel h obj;
    frames ← serializeAll h topoSortedChildren ∅;
    Ok (Wire.writeInt32NoTag (Z.of_nat (length topoSortedChildren))
          ++ orderCodec.serialize (getOrder obj) ++ frames).

(** *** Reading *)

(** The receiving process: the contents of its [Object[]] arrays and the
    static [digestToChild] cache.  The cache holds its values weakly; the
    model keeps every entry, i.e. it describes runs in which the
    interned values stay reachable. *)
Record Process : Type := mkProcess {
  objects : heap T;
  digestToChild : gmap (list Z) (Object T)
}.

(** The loop of [deserializeMultipleItemChildArray]: [n] entries are
    read from [childCodedIn]. *)
Fixpoint readEntries (n : nat) (cache : gmap (list Z) (Object T))
    (childCodedIn : list Z) : res (list (Object T) * list Z) :=
  match n with
  | O => Ok ([], childCodedIn)
  | S n' =>
      '(isTransitiveEntry, childCodedIn) ← Wire.readBool childCodedIn;
      '(child, childCodedIn) ←
        (if isTransitiveEntry : bool then
           '(digest, childCodedIn) ← Wire.readBytes childCodedIn;
           child ← checkNotNull (cache !! digest);
           Ok (child, childCodedIn)
         else
           '(p, childCodedIn) ← ctx_deserialize childCodedIn;
           Ok (Elem p, childCodedIn));
      '(rest, childCodedIn) ← readEntries n' cache childCodedIn;
      Ok (child :: rest, childCodedIn)
  end.

(** [new Object[childCount]] is the next free address; the array becomes
    part of the heap once it is filled. *)
Definition deserializeMultipleItemChildArray (p : Process)
    (childCodedIn : list Z) (childCount : Z) : res (Object T * Process) :=
  '(children, _) ← readEntries (Z.to_nat childCount) (digestToChild p) childCodedIn;
  Ok (Arr (length (objects p)),
      mkProcess (objects p ++ [children]) (digestToChild p)).

(** [ConcurrentMap.putIfAbsent]: the previous value, and the map. *)
Definition putIfAbsent (cache : gmap (list Z) (Object T)) (key : list Z)
    (value : Object T) : option (Object T) * gmap (list Z) (Object T) :=
  match cache !! key with
  | Some old => (Some old, cache)
  | None => (None, <[key := value]> cache)
  end.

Definition deserializeOneNestedSet (p : Process) (codedIn : list Z)
  : res (Object T * Process * list Z) :=
  '(digest, codedIn) ← Wire.readBytes codedIn;
  '(body, codedIn) ← Wire.readBytes codedIn;
  '(childCount, childCodedIn) ← Wire.readInt32 body;
  '(result, p) ←
    (if childCount >? 1 then
       deserializeMultipleItemChildArray p childCodedIn childCount
     else if childCount =? 1 then
       '(x, _) ← ctx_deserialize childCodedIn;
       Ok (Elem x, p)
     else Ok (EMPTY_CHILDREN, p));
  let '(oldValue, cache) := putIfAbsent (digestToChild p) digest result in
  Ok (match oldValue with None => result | Some old => old end,
      mkProcess (objects p) cache, codedIn).

(** [for (int i = 0; i < nestedSetCount; ++i) children = ...]; [None] is
    the initial [null]. *)
Fixpoint deserializeLoop (n : nat) (children : option (Object T)) (p : Process)
    (codedIn : list Z) : res (option (Object T) * Process * list Z) :=
  match n with
  | O => Ok (children, p, codedIn)
  | S n' =>
      '(c, p, codedIn) ← deserializeOneNestedSet p codedIn;
      deserializeLoop n' (Some c) p codedIn
  end.

(** [deserialize]: the nested set, the process afterwards and the rest of
    the input.  After the [checkState] the loop runs at least once, so
    [children] is not [null] when [createNestedSet] is reached. *)
Definition deserialize (p : Process) (codedIn : list Z)
  : res (NestedSet T * Process * list Z) :=
  if negb shouldSerializeNestedSet then Ok (emptySet STABLE_ORDER, p, codedIn)
  else
    '(nestedSetCount, codedIn) ← Wire.readInt32 codedIn;
    _ ← checkState (nestedSetCount >=? 1);
    '(order, codedIn) ← orderCodec.deserialize codedIn;
    '(children, p, codedIn) ← deserializeLoop (Z.to_nat nestedSetCount) None p codedIn;
    match children with
    | Some children => Ok (createNestedSet order children, p, codedIn)
    | None => Throw NullPointerException
    end.

End NestedSetCodec.

(** ** Notions used to state the properties *)

Section Notions.

Context {T : Type}.

(** [refs h x y]: the array [x] has the array [y] among its entries. *)
Definition refs (h : heap T) (x y : Object T) : Prop :=
  match x, y with
  | Arr a, Arr _ => y ∈ array h a
  | _, _ => False
  end.

(** The children nodes transitively reachable from [root]. *)
Definition reachable (h : heap T) (root x : Object T) : Prop :=
  rtc (refs h) root x.

(** No infinite chain of references starts at [x] (invariant I1). *)
Inductive acyclic (h : heap T) : Object T -> Prop :=
| acyclic_intro x : (forall y, refs h x y -> acyclic h y) -> acyclic h x.

(** Every node of [l] comes after the nodes it references. *)
Definition topologically_sorted (h : heap T) (l : list (Object T)) : Prop :=
forall i x y, l !! i = Some x -> refs h x y ->
              exists j, (j < i)%nat /\ l !! j = Some y.

Definition is_array (x : Object T) : Prop :=
match x with Arr _ => True | _ => False end.

(** What holds of the [LinkedHashSet] between two visits of [dfs]. *)
Definition sorted_set (h : heap T) (sets : list (Object T)) : Prop :=
NoDup sets /\ topologically_sorted h sets.

(** What a visit of [x] adds to [sets]. *)
Definition visited (h : heap T) (sets : list (Object T)) (x : Object T)
  (sets' : list (Object T)) : Prop :=
exists added, sets' = sets ++ added /\ sorted_set h sets' /\ x ∈ sets'
              /\ forall y, y ∈ added -> reachable h x y.

(** Every array holds references to arrays allocated before it only, as in
    a heap built by allocating immutable arrays. *)
Fixpoint bottom_up_from (a : nat) (h : heap T) : bool :=
  match h with
  | [] => true
  | l :: h' =>
      forallb (fun c => match c with Arr b => Nat.ltb b a | _ => true end) l
      && bottom_up_from (S a) h'
  end.

Definition bottom_up (h : heap T) : bool := bottom_up_from 0 h.

(** The node a frame with declared digest [digest] yields once its body
    has been parsed to [result], and the process afterwards. *)
Definition interned (p : @Process T) (digest : list Z) (result : Object T)
  : Object T * @Process T :=
  match digestToChild p !! digest with
  | Some old => (old, p)
  | None => (result, mkProcess (objects p) (<[digest := result]> (digestToChild p)))
  end.

End Notions.

(** A payload codec used in examples: an element is one byte. *)
Definition byte_serialize (x : Z) : res (list Z) := Ok [x].

Definition byte_deserialize (b : list Z) : res (Z * list Z) :=
  match b with
  | x :: r => Ok (x, r)
  | [] => Throw InvalidProtocolBufferException
  end.

(** The diamond of the end-to-end scenarios: A = [1, 10]; B = [A, 2];
    C = [A, 3]; R = [B, C]. *)
Definition diamond : heap Z :=
  [[Elem 1; Elem 10]; [Arr 0%nat; Elem 2]; [Arr 0%nat; Elem 3]; [Arr 1%nat; Arr 2%nat]].

(** Two arrays that refer to each other. *)
Definition knot : heap Z :=
  [[Arr 1%nat; Elem 0]; [Arr 0%nat; Elem 1]].

(** A blob with one leaf frame that declares, as its digest, the digest of
    the body of the EMPTY frame. *)
Definition mislabelled_leaf : list Z :=
  Wire.writeInt32NoTag 1 ++ orderCodec.serialize STABLE_ORDER
    ++ Wire.writeByteArrayNoTag (MD5.md5 (Wire.writeInt32NoTag 0))
    ++ Wire.writeByteArrayNoTag (Wire.writeInt32NoTag 1 ++ [7]).

(** The blob written for the branch [112, 113], and a one-frame blob whose
    branch refers to that branch by digest without carrying its frame. *)
Definition pq_heap : heap Z := [[Elem 112; Elem 113]].

Definition pq_body : list Z := Wire.writeInt32NoTag 2 ++ [0; 112; 0; 113].

Definition pq_blob : list Z :=
  Wire.writeInt32NoTag 1 ++ orderCodec.serialize STABLE_ORDER
    ++ Wire.writeByteArrayNoTag (MD5.md5 pq_body) ++ Wire.writeByteArrayNoTag pq_body.

Definition dangling_body : list Z :=
  Wire.writeInt32NoTag 2 ++ [1] ++ Wire.writeByteArrayNoTag (MD5.md5 pq_body) ++ [0; 114].

Definition dangling_blob : list Z :=
  Wire.writeInt32NoTag 1 ++ orderCodec.serialize STABLE_ORDER
    ++ Wire.writeByteArrayNoTag (MD5.md5 dangling_body)
    ++ Wire.writeByteArrayNoTag dangling_body.

(** What [serialize] writes for an empty nested set. *)
Definition empty_blob (order : Order) : list Z :=
  Wire.writeInt32NoTag 1 ++ orderCodec.serialize order
    ++ Wire.writeByteArrayNoTag (MD5.md5 (Wire.writeInt32NoTag 0))
    ++ Wire.writeByteArrayNoTag (Wire.writeInt32NoTag 0).

(** The outcome of a read, without the cache: the nested set, the arrays
    of the process and the unread input. *)
Definition outcome {T : Type} (r : res (NestedSet T * @Process T * list Z))
  : res (NestedSet T * heap T * list Z) :=
  '(n, p, rest) ← r; Ok (n, objects p, rest).

(** The process after a read ([p] itself when the read fails). *)
Definition after {T : Type} (p : @Process T)
    (r : res (NestedSet T * @Process T * list Z)) : @Process T :=
  match r with
  | Ok (_, p', _) => p'
  | Throw _ => p
  end.

(** ** Frames: the writer and the reader, frame by frame *)

Section Frames.

Context {T : Type}.
Variable ctx_serialize : T -> res (list Z).

(** One frame as [serializeOneNestedSet] produces it: the node, the
    [childToDigest] table it was written under, its digest and its body. *)
Record Frame : Type := mkFrame {
  node : Object T;
  table : gmap addr (list Z);
  digest : list Z;
  body : list Z
}.

(** The bytes of a frame on [codedOut]. *)
Definition frame_bytes (f : Frame) : list Z :=
  Wire.writeByteArrayNoTag (digest f) ++ Wire.writeByteArrayNoTag (body f).

(** The frames the loop of [serialize] writes for [topoSortedChildren],
    and the final table. *)
Fixpoint framesOf (h : heap T) (topoSortedChildren : list (Object T))
    (childToDigest : gmap addr (list Z)) : res (list Frame * gmap addr (list Z)) :=
  match topoSortedChildren with
  | [] => Ok ([], childToDigest)
  | children :: rest =>
      childBytes ← serializeBody ctx_serialize h children childToDigest;
      if 2 ^ 31 <=? Z.of_nat (length childBytes) then Throw OutOfMemoryError
      else
        '(fs, final) ← framesOf h rest (put childToDigest children (MD5.md5 childBytes));
        Ok (mkFrame children childToDigest (MD5.md5 childBytes) childBytes :: fs, final)
  end.

(** The object a reader puts in place of the entry [c] of a branch that
    was written under [tbl]: an element as it is, a reference as the cache
    entry under the digest written for it. *)
Definition resolve (tbl : gmap addr (list Z)) (cache : gmap (list Z) (Object T))
    (c : Object T) : Object T :=
  match c with
  | Arr b => default EMPTY_CHILDREN (tbl !! b ≫= fun d => cache !! d)
  | _ => c
  end.

(** The node built from the body of the frame [f], before the cache is
    consulted, and the process with the new array. *)
Definition rebuild (h : heap T) (p : @Process T) (f : Frame) : Object T * @Process T :=
  match node f with
  | Arr a =>
      (Arr (length (objects p)),
       mkProcess (objects p ++ [map (resolve (table f) (digestToChild p)) (array h a)])
                 (digestToChild p))
  | x => (x, p)
  end.

(** What reading the frame [f] makes of the process, and the node it
    yields. *)
Definition readFrame (h : heap T) (p : @Process T) (f : Frame) : Object T * @Process T :=
  interned (rebuild h p f).2 (digest f) (rebuild h p f).1.

Fixpoint readFrames (h : heap T) (children : option (Object T)) (p : @Process T)
    (fs : list Frame) : option (Object T) * @Process T :=
  match fs with
  | [] => (children, p)
  | f :: fs' => readFrames h (Some (readFrame h p f).1) (readFrame h p f).2 fs'
  end.

(** Structural equality of a node of the heap [h] and a node of the heap
    [h']: the same shape, the same entries in the same order. *)
Inductive same_structure (h h' : heap T) : Object T -> Object T -> Prop :=
| same_empty : same_structure h h' EMPTY_CHILDREN EMPTY_CHILDREN
| same_elem e : same_structure h h' (Elem e) (Elem e)
| same_array a a' cs cs' :
    h !! a = Some cs -> h' !! a' = Some cs' ->
    Forall2 (same_structure h h') cs cs' ->
    same_structure h h' (Arr a) (Arr a').

End Frames.

Arguments node {T} _.
Arguments table {T} _.
Arguments digest {T} _.
Arguments body {T} _.
Arguments frame_bytes {T} _.

(** ** Well-formed nested sets *)

Section WellFormed.

Context {T : Type}.
Variable ctx_serialize : T -> res (list Z).
Variable ctx_deserialize : list Z -> res (T * list Z).

(** The payload codec reads back the element it wrote, and leaves what
    follows it in the input. *)
Definition round_trips (e : T) : Prop :=
  forall bs rest, ctx_serialize e = Ok bs -> ctx_deserialize (bs ++ rest) = Ok (e, rest).

(** A branch has at least two entries, and the elements of a node round
    trip under the payload codec. *)
Definition well_formed_node (h : heap T) (x : Object T) : Prop :=
  match x with
  | EMPTY_CHILDREN => True
  | Elem e => round_trips e
  | Arr a => (2 <= length (array h a))%nat
             /\ forall e, Elem e ∈ array h a -> round_trips e
  end.

(** Every digest of the writer's table is a 16-byte digest under which
    the cache holds a node. *)
Definition table_in_cache (tbl : gmap addr (list Z))
    (cache : gmap (list Z) (Object T)) : Prop :=
  forall b d, tbl !! b = Some d -> length d = 16%nat /\ is_Some (cache !! d).

End WellFormed.

(** What [framesOf] records about each frame: its body is the body written
    for its node under its table, fits a [byte[]], and its digest is the
    MD5 of the body. *)
Definition frame_written {T : Type} (ctx_serialize : T -> res (list Z)) (h : heap T)
    (f : @Frame T) : Prop :=
  serializeBody ctx_serialize h (node f) (table f) = Ok (body f)
  /\ Z.of_nat (length (body f)) < 2 ^ 31
  /\ digest f = MD5.md5 (body f).

(** ** The state of a read, between two frames *)

Section ReadingInvariant.

Context {T : Type}.

(** The frame [f] is settled in [p]: its digest was in the cache of [p0]
    before the read began, or the cache holds under its digest an array
    whose entries are the resolved entries of the node of [f]. *)
Definition frame_settled (h : heap T) (p0 p : @Process T) (f : @Frame T) : Prop :=
  is_Some (digestToChild p0 !! digest f)
  \/ exists a n,
      node f = Arr a
      /\ digestToChild p !! digest f = Some (Arr n)
      /\ objects p !! n
         = Some (map (resolve (table f) (digestToChild p)) (array h a)).

(** What holds of the process [p] after the frames [done] have been read,
    the read having started in [p0]. *)
Definition reading_invariant (h : heap T) (p0 : @Process T) (done : list (@Frame T))
    (p : @Process T) : Prop :=
  digestToChild p0 ⊆ digestToChild p
  /\ objects p0 `prefix_of` objects p
  /\ (forall f, f ∈ done -> frame_settled h p0 p f)
  /\ (forall d, is_Some (digestToChild p !! d) ->
                is_Some (digestToChild p0 !! d) \/ exists f, f ∈ done /\ digest f = d).

(** The frames of one blob: each is written from its node, refers only to
    digests of earlier frames, and holds a well-formed branch. *)
Definition blob_frames (ctx_serialize : T -> res (list Z))
    (ctx_deserialize : list Z -> res (T * list Z)) (h : heap T)
    (fs : list (@Frame T)) : Prop :=
  Forall (frame_written ctx_serialize h) fs
  /\ (forall i f b d,
         fs !! i = Some f -> table f !! b = Some d ->
         exists j g, (j < i)%nat /\ fs !! j = Some g /\ node g = Arr b /\ digest g = d)
  /\ (forall f, f ∈ fs ->
                is_array (node f)
                /\ well_formed_node ctx_serialize ctx_deserialize h (node f)).

(** MD5 does not collide on the bodies of the frames. *)
Definition collision_free (fs : list (@Frame T)) : Prop :=
  forall f g, f ∈ fs -> g ∈ fs -> digest f = digest g -> body f = body g.

(** What the cache of [p] holds under a digest of [fs] has the structure
    of the node of that frame. *)
Definition cache_consistent (h : heap T) (p : @Process T) (fs : list (@Frame T)) : Prop :=
  forall f o, f ∈ fs -> digestToChild p !! digest f = Some o ->
              same_structure h (objects p) (node f) o.

End ReadingInvariant.

(** The shared sub-graph of the end-to-end scenarios: S = [112, 113];
    R = [S, S, 114]; and the frames written for R. *)
Definition shared : heap Z :=
  [[Elem 112; Elem 113]; [Arr 0%nat; Arr 0%nat; Elem 114]].

Definition shared_set : NestedSet Z := mkNestedSet STABLE_ORDER (Arr 1%nat).

Definition shared_frames : list (@Frame Z) :=
  match framesOf byte_serialize shared [Arr 0%nat; Arr 1%nat] ∅ with
  | Ok (fs, _) => fs
  | Throw _ => []
  end.

Definition shared_table : gmap addr (list Z) :=
  match framesOf byte_serialize shared [Arr 0%nat; Arr 1%nat] ∅ with
  | Ok (_, final) => final
  | Throw _ => ∅
  end.

(** The image of an entry under a map of source arrays to arrays of the
    reading process. *)
Definition relocate {T : Type} (image : addr -> addr) (c : Object T) : Object T :=
  match c with
  | Arr b => Arr (image b)
  | _ => c
  end.

(** The array a read leaves in the cache for the source array [a], given
    the writer's final table. *)
Definition image_of {T : Type} (final : gmap addr (list Z))
    (cache : gmap (list Z) (Object T)) (a : addr) : addr :=
  match final !! a ≫= (fun d => cache !! d) with
  | Some (Arr n) => n
  | _ => O
  end.

(** The bytes written for [shared_set]: two frames, the root referring
    twice to the digest of S. *)
Definition shared_blob : list Z :=
  [2; 0;
   16; 95; 209; 142; 106; 108; 114; 245; 175; 55; 255; 156; 164; 142; 137; 90; 125;
   5; 2; 0; 112; 0; 113;
   16; 118; 129; 253; 140; 223; 178; 20; 159; 61; 210; 244; 47; 172; 97; 204; 39;
   39; 3;
   1; 16; 95; 209; 142; 106; 108; 114; 245; 175; 55; 255; 156; 164; 142; 137; 90; 125;
   1; 16; 95; 209; 142; 106; 108; 114; 245; 175; 55; 255; 156; 164; 142; 137; 90; 125;
   0; 114].

(** A branch that holds the sentinel among its entries. *)
Definition with_sentinel : heap Z := [[Elem 1; EMPTY_CHILDREN]].

(** A branch with one entry, and the frame written for it. *)
Definition single_entry : heap Z := [[Elem 5]].

Definition single_entry_frame : @Frame Z :=
  mkFrame (Arr 0%nat) ∅ (MD5.md5 [1; 0; 5]) [1; 0; 5].

(** The frame of the empty set, and the process left by reading
    [mislabelled_leaf], whose cache holds a leaf under the digest of that
    frame. *)
Definition empty_frame_bytes : list Z :=
  Wire.writeByteArrayNoTag (MD5.md5 (Wire.writeInt32NoTag 0))
    ++ Wire.writeByteArrayNoTag (Wire.writeInt32NoTag 0).

Definition misled : @Process Z :=
  after (mkProcess [] ∅) (deserialize byte_deserialize true (mkProcess [] ∅) mislabelled_leaf).

(** The array a read leaves in the cache for the source array [a], given
    the digest [dig a] of the frames written for [a]. *)
Definition image_by {T : Type} (dig : addr -> list Z)
    (cache : gmap (list Z) (Object T)) (a : addr) : addr :=
  match cache !! dig a with
  | Some (Arr n) => n
  | _ => O
  end.

(** The digest written for the array [a] in one of two blobs. *)
Definition digest_in (final1 final2 : gmap addr (list Z)) (a : addr) : list Z :=
  match final1 !! a with
  | Some d => d
  | None => default [] (final2 !! a)
  end.

(** Two roots that share the array S = [112, 113]. *)
Definition two_roots : heap Z :=
  [[Elem 112; Elem 113]; [Arr 0%nat; Elem 1]; [Elem 2; Arr 0%nat]].

Definition first_frames : list (@Frame Z) :=
  match framesOf byte_serialize two_roots [Arr 0%nat; Arr 1%nat] ∅ with
  | Ok (fs, _) => fs
  | Throw _ => []
  end.

Definition first_table : gmap addr (list Z) :=
  match framesOf byte_serialize two_roots [Arr 0%nat; Arr 1%nat] ∅ with
  | Ok (_, final) => final
  | Throw _ => ∅
  end.

Definition second_frames : list (@Frame Z) :=
  match framesOf byte_serialize two_roots [Arr 0%nat; Arr 2%nat] ∅ with
  | Ok (fs, _) => fs
  | Throw _ => []
  end.

Definition second_table : gmap addr (list Z) :=
  match framesOf byte_serialize two_roots [Arr 0%nat; Arr 2%nat] ∅ with
  | Ok (_, final) => final
  | Throw _ => ∅
  end.

(** A check of [collision_free] by computation. *)
Definition collision_check {T : Type} (fs : list (@Frame T)) : bool :=
  forallb (fun f =>
             forallb (fun g => implb (bool_decide (digest f = digest g))
                                     (bool_decide (body f = body g))) fs) fs.

(** * Properties *)

(** ** MD5 test vectors (RFC 1321) *)

Example md5_empty :
  MD5.md5 [] = [212; 29; 140; 217; 143; 0; 178; 4; 233; 128; 9; 152; 236; 248; 66; 126].
Proof. vm_compute. reflexivity. Qed.

Example md5_abc :
  MD5.md5 [97; 98; 99]
  = [144; 1; 80; 152; 60; 210; 79; 176; 214; 150; 63; 125; 40; 225; 127; 114].
Proof. vm_compute. reflexivity. Qed.

Example md5_zero :
  MD5.md5 [0]
  = [147; 184; 133; 173; 254; 13; 160; 137; 205; 246; 52; 144; 79; 213; 159; 113].
Proof. vm_compute. reflexivity. Qed.

(** ** The wire primitives: what is written is read back *)

Lemma bind_Ok {A B : Type} (a : A) (k : A -> res B) : (Ok a ≫= k) = k a.
Proof. reflexivity. Qed.

Lemma bind_inv {A B : Type} (m : res A) (k : A -> res B) (b : B) :
  (m ≫= k) = Ok b -> exists a, m = Ok a /\ k a = Ok b.
Proof. destruct m as [a|e]; [eauto | discriminate]. Qed.

Lemma land_lnot127 v : Z.land v (Z.lnot 127) = Z.shiftl (Z.shiftr v 7) 7.
Proof.
  apply Z.bits_inj'. intros n Hn.
  rewrite Z.land_spec, Z.lnot_spec by lia.
  destruct (Z.lt_ge_cases n 7) as [Hlt|Hge].
  - rewrite Z.shiftl_spec_low by lia.
    assert (Z.testbit 127 n = true) as ->.
    { assert (n = 0 \/ n = 1 \/ n = 2 \/ n = 3 \/ n = 4 \/ n = 5 \/ n = 6) as Hc by lia.
      destruct Hc as [->|[->|[->|[->|[->|[->| ->]]]]]]; reflexivity. }
    simpl. apply andb_false_r.
  - rewrite Z.shiftl_spec by lia. rewrite Z.shiftr_spec by lia.
    replace (n - 7 + 7) with n by lia.
    assert (Z.testbit 127 n = false) as ->.
    { apply Z.bits_above_log2; [lia|]. simpl. lia. }
    simpl. apply andb_true_r.
Qed.

Lemma small_iff v : 0 <= v -> (Z.land v (Z.lnot 127) =? 0) = (v <? 128).
Proof.
  intros Hv. rewrite land_lnot127, Z.shiftl_mul_pow2, Z.shiftr_div_pow2 by lia.
  change (2 ^ 7) with 128.
  destruct (Z.ltb_spec v 128).
  - rewrite Z.div_small by lia. reflexivity.
  - apply Z.eqb_neq. assert (1 <= v / 128) by (apply Z.div_le_lower_bound; lia). lia.
Qed.

Lemma land127_small v : 0 <= v < 128 -> Z.land v 127 = v.
Proof. intros. change 127 with (Z.ones 7). rewrite Z.land_ones by lia. apply Z.mod_small. simpl; lia. Qed.

Lemma land128_small v : 0 <= v < 128 -> Z.land v 128 = 0.
Proof.
  intros. apply Z.bits_inj'. intros n Hn. rewrite Z.land_spec, Z.bits_0.
  destruct (Z.eq_dec n 7) as [->|Hne].
  - rewrite (Z.bits_above_log2 v 7); [reflexivity|lia|].
    destruct (Z.eq_dec v 0) as [->|]; [simpl; lia|].
    apply Z.log2_lt_pow2; simpl; lia.
  - replace (Z.testbit 128 n) with false; [apply andb_false_r|].
    change 128 with (2 ^ 7). symmetry. apply Z.pow2_bits_false. lia.
Qed.

Lemma cont_low v : Z.land (Z.lor (Z.land v 127) 128) 127 = Z.land v 127.
Proof.
  rewrite Z.land_lor_distr_l. change (Z.land 128 127) with 0. rewrite Z.lor_0_r.
  rewrite <- Z.land_assoc. reflexivity.
Qed.

Lemma cont_high v : Z.land (Z.lor (Z.land v 127) 128) 128 = 128.
Proof.
  rewrite Z.land_lor_distr_l. change (Z.land 128 128) with 128.
  rewrite <- Z.land_assoc. change (Z.land 127 128) with 0. rewrite Z.land_0_r. reflexivity.
Qed.

Lemma lor_split acc v shift : 0 <= shift ->
  Z.lor (Z.lor acc (Z.shiftl (Z.land v 127) shift)) (Z.shiftl (Z.shiftr v 7) (shift + 7))
  = Z.lor acc (Z.shiftl v shift).
Proof.
  intros Hs. rewrite <- Z.lor_assoc. f_equal.
  apply Z.bits_inj'. intros n Hn.
  rewrite Z.lor_spec.
  destruct (Z.lt_ge_cases n shift).
  - rewrite !Z.shiftl_spec_low by lia. reflexivity.
  - rewrite !Z.shiftl_spec by lia. rewrite Z.land_spec.
    destruct (Z.lt_ge_cases (n - shift) 7).
    + rewrite (Z.testbit_neg_r _ (n - (shift + 7))) by lia.
      change 127 with (Z.ones 7). rewrite Z.ones_spec_low by lia.
      rewrite andb_true_r, orb_false_r. reflexivity.
    + change 127 with (Z.ones 7). rewrite Z.ones_spec_high by lia.
      rewrite andb_false_r. simpl. rewrite Z.shiftr_spec by lia. f_equal. lia.
Qed.

Lemma writeVarint_S n v :
  Wire.writeVarint (S n) v
  = if Z.land v (Z.lnot 127) =? 0 then [v]
    else Z.lor (Z.land v 127) 128 :: Wire.writeVarint n (Z.shiftr v 7).
Proof. reflexivity. Qed.

Lemma read_write_varint k : forall n v shift acc rest,
  (S k <= n)%nat -> 0 <= v < 2 ^ (7 * Z.of_nat (S k)) -> 0 <= shift ->
  Wire.readRawVarint64SlowPath n shift acc (Wire.writeVarint (S k) v ++ rest)
  = Ok (to_int64 (Z.lor acc (Z.shiftl v shift)), rest).
Proof.
  induction k as [|k IH]; intros n v shift acc rest Hn Hv Hs.
  - destruct n as [|n]; [lia|]. change (2 ^ (7 * Z.of_nat 1)) with 128 in Hv.
    cbn [Wire.writeVarint]. rewrite small_iff by lia.
    destruct (Z.ltb_spec v 128); [|lia].
    cbn [app Wire.readRawVarint64SlowPath].
    rewrite land128_small, land127_small by lia. reflexivity.
  - destruct n as [|n]; [lia|].
    rewrite writeVarint_S, small_iff by lia.
    destruct (Z.ltb_spec v 128).
    + cbn [app Wire.readRawVarint64SlowPath].
      rewrite land128_small, land127_small by lia. reflexivity.
    + rewrite <- app_comm_cons. cbn [Wire.readRawVarint64SlowPath].
      rewrite cont_high, cont_low. change (128 =? 0) with false. cbv iota.
      rewrite IH; [| lia | | lia].
      * rewrite lor_split by lia. reflexivity.
      * rewrite Z.shiftr_div_pow2 by lia. split; [apply Z.div_pos; lia|].
        apply Z.div_lt_upper_bound; [lia|]. rewrite <- Z.pow_add_r by lia.
        replace (7 + 7 * Z.of_nat (S k)) with (7 * Z.of_nat (S (S k))) by lia. lia.
Qed.

Lemma to_int64_small v : 0 <= v < 2 ^ 63 -> to_int64 v = v.
Proof. intros. unfold to_int64. rewrite Z.mod_small; lia. Qed.

Lemma to_int32_small v : 0 <= v < 2 ^ 31 -> to_int32 v = v.
Proof. intros. unfold to_int32. rewrite Z.mod_small; lia. Qed.

Lemma readRawVarint64_writeUInt32 v rest :
  0 <= v < 2 ^ 32 ->
  Wire.readRawVarint64 (Wire.writeUInt32NoTag v ++ rest) = Ok (v, rest).
Proof.
  intros Hv. unfold Wire.readRawVarint64, Wire.writeUInt32NoTag.
  rewrite Z.mod_small by lia.
  rewrite (read_write_varint 4) by (simpl; lia).
  rewrite Z.shiftl_0_r, Z.lor_0_l, to_int64_small by lia. reflexivity.
Qed.

Lemma readInt32_writeInt32 v rest :
  0 <= v < 2 ^ 31 ->
  Wire.readInt32 (Wire.writeInt32NoTag v ++ rest) = Ok (v, rest).
Proof.
  intros Hv. unfold Wire.readInt32, Wire.readRawVarint32, Wire.writeInt32NoTag.
  destruct (Z.leb_spec 0 v); [|lia].
  rewrite readRawVarint64_writeUInt32 by lia. rewrite bind_Ok.
  rewrite to_int32_small by lia. reflexivity.
Qed.

Lemma readBytes_writeByteArray (value rest : list Z) :
  Z.of_nat (length value) < 2 ^ 31 ->
  Wire.readBytes (Wire.writeByteArrayNoTag value ++ rest) = Ok (value, rest).
Proof.
  intros Hlen. unfold Wire.readBytes, Wire.writeByteArrayNoTag, Wire.readRawVarint32.
  rewrite <- app_assoc, readRawVarint64_writeUInt32 by lia.
  rewrite !bind_Ok, to_int32_small by lia.
  rewrite length_app.
  destruct (Z.leb_spec 0 (Z.of_nat (length value))); [|lia].
  destruct (Z.leb_spec (Z.of_nat (length value)) (Z.of_nat (length value + length rest)));
    [|lia].
  cbn [andb]. rewrite Nat2Z.id, take_app_length, drop_app_length. reflexivity.
Qed.

Lemma readBool_writeBool (b : bool) rest :
  Wire.readBool (Wire.writeBoolNoTag b ++ rest) = Ok (b, rest).
Proof. destruct b; reflexivity. Qed.

(** ** The envelope and the frames, read side *)

Section Reader.

Context {T : Type}.
Variable ctx_deserialize : list Z -> res (T * list Z).

(** C6.  A declared count below 1 (0 in particular) makes [deserialize]
    fail with the [checkState] error and return no nested set; whenever
    [deserialize] returns a nested set, the count it read was at least 1. *)
Theorem deserialize_count_at_least_1 (p : @Process T) (codedIn : list Z) :
  (forall n rest,
      Wire.readInt32 codedIn = Ok (n, rest) -> n < 1 ->
      deserialize ctx_deserialize true p codedIn = Throw IllegalStateException)
  /\ (forall r,
      deserialize ctx_deserialize true p codedIn = Ok r ->
      exists n rest, Wire.readInt32 codedIn = Ok (n, rest) /\ 1 <= n).
Proof.
  unfold deserialize. cbn [negb].
  destruct (Wire.readInt32 codedIn) as [[n rest]|e]; rewrite ?bind_Ok.
  - split.
    + intros n' rest' [= <- <-] Hlt.
      destruct (Z.geb_spec n 1); [lia|]. reflexivity.
    + intros r Hr. exists n, rest. split; [reflexivity|].
      destruct (Z.geb_spec n 1); [lia|]. discriminate.
  - split; intros; discriminate.
Qed.

(** C10.  A frame whose body declares a negative child count is not
    refused: it yields the EMPTY sentinel (subject to the cache, like
    every frame), the rest of the input is left for the next frame, and
    a frame with the same digest declaring 0 children behaves alike. *)
Theorem negative_child_count_reads_as_empty (p : @Process T)
    (codedIn in1 in2 digest body childCodedIn : list Z) (k : Z) :
  Wire.readBytes codedIn = Ok (digest, in1) ->
  Wire.readBytes in1 = Ok (body, in2) ->
  Wire.readInt32 body = Ok (k, childCodedIn) ->
  k < 0 ->
  deserializeOneNestedSet ctx_deserialize p codedIn
  = Ok (interned p digest EMPTY_CHILDREN, in2)
  /\ forall codedIn0 in0 body0 childCodedIn0,
      Wire.readBytes codedIn0 = Ok (digest, in0) ->
      Wire.readBytes in0 = Ok (body0, in2) ->
      Wire.readInt32 body0 = Ok (0, childCodedIn0) ->
      deserializeOneNestedSet ctx_deserialize p codedIn0
      = deserializeOneNestedSet ctx_deserialize p codedIn.
Proof.
  intros Hd Hb Hk Hneg.
  assert (forall c i b cc k', k' < 1 ->
            Wire.readBytes c = Ok (digest, i) ->
            Wire.readBytes i = Ok (b, in2) ->
            Wire.readInt32 b = Ok (k', cc) ->
            deserializeOneNestedSet ctx_deserialize p c
            = Ok (interned p digest EMPTY_CHILDREN, in2)) as Hgen.
  { intros c i b cc k' Hk' H1 H2 H3. unfold deserializeOneNestedSet.
    rewrite H1, bind_Ok. cbn beta iota. rewrite H2, bind_Ok. cbn beta iota.
    rewrite H3, bind_Ok. cbn beta iota.
    destruct (Z.gtb_spec k' 1); [lia|].
    destruct (Z.eqb_spec k' 1); [lia|].
    rewrite bind_Ok. unfold putIfAbsent, interned.
    destruct (digestToChild p !! digest); [destruct p|]; reflexivity. }
  split.
  - eapply (Hgen _ _ _ _ k); [lia|eassumption..].
  - intros c0 i0 b0 cc0 H1 H2 H3.
    rewrite (Hgen codedIn in1 body childCodedIn k ltac:(lia) Hd Hb Hk).
    eapply (Hgen _ _ _ _ 0); [lia|eassumption..].
Qed.

End Reader.
Lemma deserialize_count_at_least_1_witness :
  deserialize byte_deserialize true (mkProcess [] ∅) [0; 0]
  = Throw IllegalStateException.
Proof.
  apply (proj1 (deserialize_count_at_least_1 byte_deserialize (mkProcess [] ∅) [0; 0])
           0 [0]); [reflexivity | lia].
Defined.

Lemma negative_child_count_reads_as_empty_witness :
  deserializeOneNestedSet byte_deserialize (mkProcess [] ∅)
    [1; 9; 10; 255; 255; 255; 255; 255; 255; 255; 255; 255; 1; 42]
  = Ok (interned (mkProcess [] ∅) [9] EMPTY_CHILDREN, [42]).
Proof.
  apply (proj1 (negative_child_count_reads_as_empty byte_deserialize (mkProcess [] ∅)
                  [1; 9; 10; 255; 255; 255; 255; 255; 255; 255; 255; 255; 1; 42]
                  [10; 255; 255; 255; 255; 255; 255; 255; 255; 255; 1; 42] [42] [9]
                  [255; 255; 255; 255; 255; 255; 255; 255; 255; 1] [] (-1)
                  eq_refl eq_refl eq_refl ltac:(lia))).
Defined.

(** ** The topological sort *)

Section TopologicalSort.

Context {T : Type}.
Variable T_equals : T -> T -> bool.
Variable h : heap T.

Lemma refs_is_array x y : refs h x y -> is_array x /\ is_array y.
Proof. destruct x, y; simpl; tauto. Qed.

Lemma contains_spec sets x :
  is_array x -> contains T_equals sets x = true <-> x ∈ sets.
Proof.
  destruct x as [| |a]; simpl; try tauto. intros _.
  unfold contains. rewrite existsb_exists. split.
  - intros (y & Hin & Heq). apply list_elem_of_In in Hin.
    destruct y as [| |b]; simpl in Heq; try discriminate.
    apply Nat.eqb_eq in Heq. subst. exact Hin.
  - intros Hin. exists (Arr a). split; [apply list_elem_of_In, Hin|].
    simpl. apply Nat.eqb_refl.
Qed.

Lemma topologically_sorted_snoc sets x :
  topologically_sorted h sets ->
  (forall y, refs h x y -> y ∈ sets) ->
  topologically_sorted h (sets ++ [x]).
Proof.
  intros Hs Hx i z y Hi Hr.
  apply lookup_app_Some in Hi as [Hi|[Hge Hi]].
  - destruct (Hs i z y Hi Hr) as (j & Hj & Hy).
    exists j. split; [exact Hj|]. apply lookup_app_Some. left. exact Hy.
  - apply list_lookup_singleton_Some in Hi as [Hi ->].
    apply Hx in Hr. apply list_elem_of_lookup in Hr as [j Hj].
    exists j. split.
    + apply lookup_lt_Some in Hj. lia.
    + apply lookup_app_Some. left. exact Hj.
Qed.

Lemma forEach_visited (visit : list (Object T) -> Object T -> res (list (Object T))) :
  (forall sets c sets',
      sorted_set h sets -> is_array c -> visit sets c = Ok sets' -> visited h sets c sets') ->
  (forall sets c, ~ is_array c -> visit sets c = Ok sets) ->
  forall cs sets sets',
    sorted_set h sets ->
    forEach visit sets cs = Ok sets' ->
    exists added, sets' = sets ++ added /\ sorted_set h sets'
                  /\ (forall c, c ∈ cs -> is_array c -> c ∈ sets')
                  /\ forall y, y ∈ added ->
                               exists c, c ∈ cs /\ is_array c /\ reachable h c y.
Proof.
  intros Hvisit Hskip. induction cs as [|c cs IH]; intros sets sets' Hinv Hrun.
  - injection Hrun as <-. exists []. rewrite app_nil_r.
    split; [reflexivity|]. split; [exact Hinv|].
    split; intros ? Hin; apply elem_of_nil in Hin; contradiction.
  - cbn [forEach] in Hrun.
    destruct (visit sets c) as [sets1|e] eqn:Hv; [|discriminate].
    assert (exists added1, sets1 = sets ++ added1 /\ sorted_set h sets1
                           /\ (is_array c -> c ∈ sets1)
                           /\ forall y, y ∈ added1 -> is_array c /\ reachable h c y)
      as (added1 & -> & Hinv1 & Hc & Hreach1).
    { assert (is_array c \/ ~ is_array c) as [Ha|Hna] by (destruct c; simpl; tauto).
      - destruct (Hvisit _ _ _ Hinv Ha Hv) as (added1 & -> & Hinv1 & Hc & Hr).
        exists added1. repeat split; try tauto; try apply Hinv1. apply Hr, H.
      - rewrite Hskip in Hv by exact Hna. injection Hv as <-.
        exists []. rewrite app_nil_r. repeat split; try tauto; try apply Hinv;
          apply elem_of_nil in H; contradiction. }
    destruct (IH _ _ Hinv1 Hrun) as (added2 & -> & Hinv2 & Hcs2 & Hreach2).
    exists (added1 ++ added2). rewrite app_assoc.
    split; [reflexivity|]. split; [exact Hinv2|]. split.
    + intros c' Hin Ha. apply elem_of_cons in Hin as [->|Hin].
      * apply elem_of_app. left. apply Hc, Ha.
      * apply Hcs2; assumption.
    + intros y Hy. apply elem_of_app in Hy as [Hy|Hy].
      * exists c. split; [left|]. apply Hreach1, Hy.
      * destruct (Hreach2 y Hy) as (c' & Hin & Ha & Hr).
        exists c'. split; [right; exact Hin|]. tauto.
Qed.

Lemma sorted_set_lookup_tc l i x y :
  topologically_sorted h l -> l !! i = Some x -> tc (refs h) x y ->
  exists j, (j < i)%nat /\ l !! j = Some y.
Proof.
  intros Hs Hi Htc. revert i Hi. induction Htc as [x y Hr|x y z Hr _ IH]; intros i Hi.
  - exact (Hs i x y Hi Hr).
  - destruct (Hs i x y Hi Hr) as (j & Hj & Hy).
    destruct (IH j Hy) as (k & Hk & Hz). exists k. split; [lia|exact Hz].
Qed.

Lemma sorted_set_no_cycle l x :
  sorted_set h l -> x ∈ l -> tc (refs h) x x -> False.
Proof.
  intros [Hnd Hs] Hin Htc. apply list_elem_of_lookup in Hin as [i Hi].
  destruct (sorted_set_lookup_tc l i x x Hs Hi Htc) as (j & Hj & Hx).
  pose proof (NoDup_lookup l i j x Hnd Hi Hx). lia.
Qed.

Lemma sorted_set_closed l x y :
  topologically_sorted h l -> x ∈ l -> reachable h x y -> y ∈ l.
Proof.
  intros Hs Hin Hr. induction Hr as [x|x y z Hxy _ IH]; [exact Hin|].
  apply IH. apply list_elem_of_lookup in Hin as [i Hi].
  destruct (Hs i x y Hi Hxy) as (j & _ & Hy).
  apply list_elem_of_lookup. exists j. exact Hy.
Qed.

(** One call of [dfs] on an array that is not yet in the set: the arrays
    reachable from it are added, the array itself last. *)
Lemma dfs_step fuel (IH : forall sets c sets',
                        sorted_set h sets -> is_array c ->
                        dfs T_equals fuel h sets c = Ok sets' -> visited h sets c sets')
    sets a sets' :
  sorted_set h sets -> Arr a ∉ sets ->
  dfs T_equals (S fuel) h sets (Arr a) = Ok sets' ->
  visited h sets (Arr a) sets' /\ last sets' = Some (Arr a).
Proof.
  intros Hinv Hnot Hrun. cbn [dfs] in Hrun.
  destruct (contains T_equals sets (Arr a)) eqn:Hc.
  { apply contains_spec in Hc; [contradiction|exact I]. }
  match type of Hrun with (?m ≫= _) = _ => destruct m as [sets1|e] eqn:Hloop end;
    [|discriminate].
  rewrite bind_Ok in Hrun. injection Hrun as <-.
  apply forEach_visited in Hloop as (added1 & -> & Hinv1 & Hcs & Hreach); [|..|exact Hinv].
  - assert (forall y, refs h (Arr a) y -> y ∈ sets ++ added1) as Hkids.
    { intros y Hr. pose proof (refs_is_array _ _ Hr) as [_ Hy].
      destruct y; try contradiction. apply Hcs; [exact Hr|exact I]. }
    assert (forall y, y ∈ added1 -> tc (refs h) (Arr a) y) as Hplus.
    { intros y Hy. destruct (Hreach y Hy) as (c & Hin & Ha & Hr).
      destruct c as [| |b]; try contradiction.
      eapply tc_rtc_r; [|exact Hr]. apply tc_once. exact Hin. }
    unfold add. destruct (contains T_equals (sets ++ added1) (Arr a)) eqn:Hc1.
    + apply contains_spec in Hc1; [|exact I]. exfalso.
      apply (sorted_set_no_cycle _ _ Hinv1 Hc1).
      apply elem_of_app in Hc1 as [Hc1|Hc1]; [contradiction|]. apply Hplus, Hc1.
    + assert (Arr a ∉ sets ++ added1) as Hnot1.
      { intros Hin. apply (contains_spec (sets ++ added1) (Arr a) I) in Hin. congruence. }
      split; [|apply last_snoc].
      exists (added1 ++ [Arr a]). rewrite app_assoc.
      split; [reflexivity|]. split; [split|split].
      * apply NoDup_app. split; [apply Hinv1|]. split; [|apply NoDup_singleton].
        intros y Hy Hy'. apply list_elem_of_singleton in Hy'. subst. contradiction.
      * apply topologically_sorted_snoc; [apply Hinv1|exact Hkids].
      * apply elem_of_app. right. apply list_elem_of_singleton. reflexivity.
      * intros y Hy. apply elem_of_app in Hy as [Hy|Hy].
        -- apply tc_rtc, Hplus, Hy.
        -- apply list_elem_of_singleton in Hy. subst. apply rtc_refl.
  - intros s c s' Hs Ha Hv. destruct c; try contradiction. apply (IH _ _ _ Hs Ha Hv).
  - intros s c Hna. destruct c; simpl in Hna; tauto.
Qed.

Lemma dfs_visited fuel : forall sets c sets',
  sorted_set h sets -> is_array c ->
  dfs T_equals fuel h sets c = Ok sets' -> visited h sets c sets'.
Proof.
  induction fuel as [|fuel IH]; intros sets c sets' Hinv Ha Hrun; [discriminate|].
  destruct c as [| |a]; try contradiction.
  destruct (contains T_equals sets (Arr a)) eqn:Hc.
  - cbn [dfs] in Hrun. rewrite Hc in Hrun. injection Hrun as <-.
    exists []. rewrite app_nil_r. split; [reflexivity|]. split; [exact Hinv|].
    split; [apply contains_spec; [exact I|exact Hc]|].
    intros ? Hin; apply elem_of_nil in Hin; contradiction.
  - apply (dfs_step fuel IH); [exact Hinv| |exact Hrun].
    intros Hin. apply (contains_spec sets (Arr a) I) in Hin. congruence.
Qed.

(** *** Enough stack gives the result *)

Lemma forEach_mono (visit visit' : list (Object T) -> Object T -> res (list (Object T))) :
  (forall sets c l, visit sets c = Ok l -> visit' sets c = Ok l) ->
  forall cs sets l, forEach visit sets cs = Ok l -> forEach visit' sets cs = Ok l.
Proof.
  intros Hle. induction cs as [|c cs IH]; intros sets l Hrun; [exact Hrun|].
  cbn [forEach] in *. destruct (visit sets c) as [s1|e] eqn:Hv; [|discriminate].
  rewrite (Hle _ _ _ Hv). apply IH, Hrun.
Qed.

Lemma dfs_fuel_mono fuel : forall fuel' sets x l,
  (fuel <= fuel')%nat ->
  dfs T_equals fuel h sets x = Ok l -> dfs T_equals fuel' h sets x = Ok l.
Proof.
  induction fuel as [|fuel IH]; intros fuel' sets x l Hle Hrun; [discriminate|].
  destruct fuel' as [|fuel']; [lia|]. cbn [dfs] in *.
  destruct (contains T_equals sets x); [exact Hrun|].
  destruct x as [| |a]; try exact Hrun.
  match type of Hrun with (?m ≫= _) = _ => destruct m as [sets1|e] eqn:Hloop end;
    [|discriminate].
  erewrite forEach_mono; [exact Hrun| |exact Hloop].
  intros s c l' Hv. destruct c; try exact Hv. apply IH; [lia|exact Hv].
Qed.

Lemma forEach_total (visit : list (Object T) -> Object T -> res (list (Object T))) cs :
  (forall c, c ∈ cs -> forall sets, exists l, visit sets c = Ok l) ->
  forall sets, exists l, forEach visit sets cs = Ok l.
Proof.
  induction cs as [|c cs IH]; intros Hall sets; [exists sets; reflexivity|].
  cbn [forEach]. destruct (Hall c (list_elem_of_here _ _) sets) as [s1 ->].
  apply IH. intros c' Hin. apply Hall. right. exact Hin.
Qed.

Lemma common_fuel (cs : list (Object T)) :
  (forall c, c ∈ cs -> is_array c ->
             exists fuel, forall sets, exists l, dfs T_equals fuel h sets c = Ok l) ->
  exists fuel, forall c, c ∈ cs -> is_array c ->
                         forall sets, exists l, dfs T_equals fuel h sets c = Ok l.
Proof.
  induction cs as [|c cs IH]; intros Hall.
  - exists O. intros c Hin. apply elem_of_nil in Hin. contradiction.
  - destruct IH as [f1 Hf1].
    { intros c' Hin. apply Hall. right. exact Hin. }
    assert (exists f0, is_array c ->
                       forall sets, exists l, dfs T_equals f0 h sets c = Ok l) as [f0 Hf0].
    { assert (is_array c \/ ~ is_array c) as [Ha|Hna] by (destruct c; simpl; tauto).
      - destruct (Hall c (list_elem_of_here _ _) Ha) as [f0 Hf0]. exists f0. auto.
      - exists O. tauto. }
    exists (max f0 f1). intros c' Hin Ha sets.
    apply elem_of_cons in Hin as [->|Hin].
    + destruct (Hf0 Ha sets) as [l Hl]. exists l.
      apply (dfs_fuel_mono f0); [lia|exact Hl].
    + destruct (Hf1 c' Hin Ha sets) as [l Hl]. exists l.
      apply (dfs_fuel_mono f1); [lia|exact Hl].
Qed.

Lemma dfs_terminates x :
  acyclic h x -> exists fuel, forall sets, exists l, dfs T_equals fuel h sets x = Ok l.
Proof.
  induction 1 as [x _ IH].
  destruct x as [| |a].
  - exists 1%nat. intros sets. cbn [dfs]. destruct (contains _ _ _); eauto.
  - exists 1%nat. intros sets. cbn [dfs]. destruct (contains _ _ _); eauto.
  - destruct (common_fuel (array h a)) as [fuel Hfuel].
    { intros c Hin Ha. destruct c; try contradiction. apply IH. exact Hin. }
    exists (S fuel). intros sets. cbn [dfs].
    destruct (contains _ _ _); [eauto|].
    edestruct (forEach_total
                 (fun sets child => match child with
                                    | Arr _ => dfs T_equals fuel h sets child
                                    | _ => Ok sets
                                    end) (array h a)) as [l ->].
    + intros c Hin s. destruct c; eauto. apply Hfuel; [exact Hin|exact I].
    + rewrite bind_Ok. eauto.
Qed.

(** The only way [dfs] fails is by exhausting the stack. *)
Lemma forEach_throws (visit : list (Object T) -> Object T -> res (list (Object T))) e0 :
  (forall sets c e, visit sets c = Throw e -> e = e0) ->
  forall cs sets e, forEach visit sets cs = Throw e -> e = e0.
Proof.
  intros Hv. induction cs as [|c cs IH]; intros sets e Hrun; [discriminate|].
  cbn [forEach] in Hrun. destruct (visit sets c) as [s1|e1] eqn:H1.
  - apply (IH _ _ Hrun).
  - injection Hrun as <-. apply (Hv _ _ _ H1).
Qed.

Lemma dfs_throws fuel : forall sets x e,
  dfs T_equals fuel h sets x = Throw e -> e = StackOverflowError.
Proof.
  induction fuel as [|fuel IH]; intros sets x e Hrun;
    [injection Hrun as <-; reflexivity|].
  cbn [dfs] in Hrun. destruct (contains T_equals sets x); [discriminate|].
  destruct x as [| |a]; try discriminate.
  match type of Hrun with (?m ≫= _) = _ => destruct m as [sets1|e1] eqn:Hloop end;
    [discriminate|].
  injection Hrun as <-. eapply forEach_throws; [|exact Hloop].
  intros s c e Hv. destruct c; try discriminate. apply (IH _ _ _ Hv).
Qed.

Lemma dfs_root fuel root l :
  dfs T_equals fuel h [] root = Ok l ->
  visited h [] root l /\ last l = Some root.
Proof.
  intros Hrun. destruct fuel as [|fuel]; [discriminate|].
  assert (sorted_set h []) as Hnil.
  { split; [apply NoDup_nil_2|]. intros i x y Hi. discriminate. }
  destruct root as [| |a].
  - injection Hrun as <-. split; [|reflexivity].
    exists [EMPTY_CHILDREN]. split; [reflexivity|]. split; [split|split].
    + apply NoDup_singleton.
    + intros i x y Hi Hr. apply list_lookup_singleton_Some in Hi as [_ <-]. contradiction.
    + left.
    + intros y Hy. apply list_elem_of_singleton in Hy. subst. apply rtc_refl.
  - injection Hrun as <-. split; [|reflexivity].
    exists [Elem p]. split; [reflexivity|]. split; [split|split].
    + apply NoDup_singleton.
    + intros i x y Hi Hr. apply list_lookup_singleton_Some in Hi as [_ <-]. contradiction.
    + left.
    + intros y Hy. apply list_elem_of_singleton in Hy. subst. apply rtc_refl.
  - apply (dfs_step fuel (dfs_visited fuel)); [exact Hnil| |exact Hrun].
    intros Hin. apply elem_of_nil in Hin. exact Hin.
Qed.

(** C3.  On an acyclic root the sort returns (with enough stack), and its
    result lists each children node reachable from the root exactly once,
    every node after the nodes it references, the root last. *)
Theorem topological_sort_correct (root : Object T) (order : Order) :
  acyclic h root ->
  exists fuel l,
    (forall fuel', (fuel <= fuel')%nat ->
        getTopologicallySortedChildren T_equals fuel' h (mkNestedSet order root) = Ok l)
    /\ NoDup l
    /\ (forall x, x ∈ l <-> reachable h root x)
    /\ topologically_sorted h l
    /\ last l = Some root.
Proof.
  intros Hacyclic. destruct (dfs_terminates root Hacyclic) as [fuel Hfuel].
  destruct (Hfuel []) as [l Hl]. exists fuel, l.
  destruct (dfs_root fuel root l Hl) as [(added & Heq & [Hnd Hs] & Hroot & Hreach) Hlast].
  simpl in Heq. subst added.
  split; [|split; [exact Hnd|split; [|split; [exact Hs|exact Hlast]]]].
  - intros fuel' Hle. apply (dfs_fuel_mono fuel); [exact Hle|exact Hl].
  - intros x. split; [apply Hreach|]. apply sorted_set_closed; assumption.
Qed.

Lemma dfs_on_cycle (root x : Object T) (fuel : nat) :
  reachable h root x -> tc (refs h) x x ->
  dfs T_equals fuel h [] root = Throw StackOverflowError.
Proof.
  intros Hreach Hcycle.
  destruct (dfs T_equals fuel h [] root) as [l|e] eqn:Hrun.
  - exfalso. destruct (dfs_root fuel root l Hrun) as [(added & _ & Hs & Hroot & _) _].
    apply (sorted_set_no_cycle l x Hs); [|exact Hcycle].
    apply (sorted_set_closed l root x); [apply Hs|exact Hroot|exact Hreach].
  - f_equal. apply (dfs_throws _ _ _ _ Hrun).
Qed.

(** C4, as the code has it.  [dfs] has no cycle check: when a cycle among
    children nodes can be reached from the root, no amount of stack lets
    the sort return, and neither the sort nor [serialize] produces output;
    the failure is the exhausted stack, not a dedicated error. *)
Theorem cyclic_sort_overflows (ctx_serialize : T -> res (list Z))
    (root x : Object T) (order : Order) (fuel : nat) :
  reachable h root x -> tc (refs h) x x ->
  getTopologicallySortedChildren T_equals fuel h (mkNestedSet order root)
  = Throw StackOverflowError
  /\ serialize T_equals ctx_serialize true fuel h (mkNestedSet order root)
     = Throw StackOverflowError.
Proof.
  intros Hreach Hcycle.
  pose proof (dfs_on_cycle root x fuel Hreach Hcycle) as Hdfs.
  unfold serialize, getTopologicallySortedChildren. cbn [negb rawChildren].
  rewrite Hdfs. split; reflexivity.
Qed.

(** Arrays allocated after the arrays they refer to cannot form a cycle. *)
Lemma bottom_up_from_lookup (h0 : heap T) : forall n i l b,
  bottom_up_from n h0 = true -> h0 !! i = Some l -> Arr b ∈ l -> (b < n + i)%nat.
Proof.
  induction h0 as [|l0 h0 IH]; intros n i l b Hb Hi Hin; [discriminate|].
  cbn [bottom_up_from] in Hb. apply andb_true_iff in Hb as [Hl Hrest].
  destruct i as [|i].
  - injection Hi as <-. rewrite forallb_forall in Hl.
    apply list_elem_of_In, Hl, Nat.ltb_lt in Hin. lia.
  - pose proof (IH (S n) i l b Hrest Hi Hin). lia.
Qed.

Lemma bottom_up_acyclic :
  bottom_up h = true -> forall x, acyclic h x.
Proof.
  intros Hb.
  assert (forall n a, (a < n)%nat -> acyclic h (Arr a)) as Hall.
  { induction n as [|n IH]; intros a Ha; [lia|].
    constructor. intros y Hr. destruct y as [| |b]; try contradiction.
    apply IH. simpl in Hr. unfold array in Hr.
    destruct (h !! a) as [l|] eqn:Hl; simpl in Hr;
      [|apply elem_of_nil in Hr; contradiction].
    pose proof (bottom_up_from_lookup h 0 a l b Hb Hl Hr). lia. }
  intros [| |a].
  - constructor. intros y Hr. contradiction.
  - constructor. intros y Hr. contradiction.
  - apply (Hall (S a)). lia.
Qed.

End TopologicalSort.

Lemma topological_sort_correct_witness :
  acyclic diamond (Arr 3%nat)
  /\ exists fuel l,
      (forall fuel', (fuel <= fuel')%nat ->
          getTopologicallySortedChildren Z.eqb fuel' diamond
            (mkNestedSet STABLE_ORDER (Arr 3%nat)) = Ok l)
      /\ NoDup l
      /\ (forall x, x ∈ l <-> reachable diamond (Arr 3%nat) x)
      /\ topologically_sorted diamond l
      /\ last l = Some (Arr 3%nat).
Proof.
  assert (acyclic diamond (Arr 3%nat)) as Ha by (apply bottom_up_acyclic; reflexivity).
  split; [exact Ha|].
  exact (topological_sort_correct Z.eqb diamond (Arr 3%nat) STABLE_ORDER Ha).
Defined.

Example diamond_order :
  getTopologicallySortedChildren Z.eqb 3 diamond (mkNestedSet STABLE_ORDER (Arr 3%nat))
  = Ok [Arr 0%nat; Arr 1%nat; Arr 2%nat; Arr 3%nat].
Proof. reflexivity. Qed.

Lemma knot_cycle : tc (refs knot) (Arr 0%nat) (Arr 0%nat).
Proof.
  apply (tc_l _ _ (Arr 1%nat)); [|apply tc_once]; simpl; unfold array; simpl.
  - left.
  - left.
Qed.

Lemma cyclic_sort_overflows_witness :
  getTopologicallySortedChildren Z.eqb 5 knot (mkNestedSet STABLE_ORDER (Arr 0%nat))
  = Throw StackOverflowError
  /\ serialize Z.eqb byte_serialize true 5 knot (mkNestedSet STABLE_ORDER (Arr 0%nat))
     = Throw StackOverflowError.
Proof.
  exact (cyclic_sort_overflows Z.eqb knot byte_serialize (Arr 0%nat) (Arr 0%nat)
           STABLE_ORDER 5%nat (rtc_refl _ _) knot_cycle).
Defined.

(** C4 as stated fails: on the two-array cycle the sort raises no cycle
    error; whatever the stack, the recursion exhausts it. *)
Lemma cyclic_sort_counterexample :
  tc (refs knot) (Arr 0%nat) (Arr 0%nat)
  /\ forall fuel,
      getTopologicallySortedChildren Z.eqb fuel knot (mkNestedSet STABLE_ORDER (Arr 0%nat))
      = Throw StackOverflowError.
Proof.
  split; [exact knot_cycle|]. intros fuel.
  exact (dfs_on_cycle Z.eqb knot (Arr 0%nat) (Arr 0%nat) fuel (rtc_refl _ _) knot_cycle).
Qed.

Lemma md5_length msg : length (MD5.md5 msg) = 16%nat.
Proof.
  unfold MD5.md5.
  destruct (MD5.chunks _ _ _) as [[[a b] c] d]. reflexivity.
Qed.

Lemma orderCodec_round_trip order rest :
  orderCodec.deserialize (orderCodec.serialize order ++ rest) = Ok (order, rest).
Proof. destruct order; reflexivity. Qed.

(** ** Digest references and the cache *)

Section References.

Context {T : Type}.
Variable ctx_deserialize : list Z -> res (T * list Z).

Lemma putIfAbsent_interned (p : @Process T) digest result (codedIn : list Z) :
  (let '(oldValue, cache) := putIfAbsent (digestToChild p) digest result in
   Ok (match oldValue with None => result | Some old => old end,
       mkProcess (objects p) cache, codedIn))
  = Ok (interned p digest result, codedIn).
Proof.
  unfold putIfAbsent, interned.
  destruct (digestToChild p !! digest); [destruct p|]; reflexivity.
Qed.

Lemma interned_cache (p : @Process T) digest result :
  digestToChild (interned p digest result).2 !! digest = Some (interned p digest result).1
  /\ digestToChild p ⊆ digestToChild (interned p digest result).2
  /\ objects (interned p digest result).2 = objects p.
Proof.
  unfold interned. destruct (digestToChild p !! digest) as [old|] eqn:Hd; cbn.
  - auto.
  - split; [apply lookup_insert_eq|]. split; [|reflexivity].
    apply insert_subseteq. exact Hd.
Qed.

(** What one frame does to the process. *)
Lemma deserializeOneNestedSet_inv (p p' : @Process T) codedIn node rest :
  deserializeOneNestedSet ctx_deserialize p codedIn = Ok (node, p', rest) ->
  exists digest in1 result p1,
    Wire.readBytes codedIn = Ok (digest, in1)
    /\ digestToChild p1 = digestToChild p
    /\ (node, p') = interned p1 digest result.
Proof.
  unfold deserializeOneNestedSet. intros Hrun.
  apply bind_inv in Hrun as ([digest in1] & Hd & Hrun). cbn beta iota in Hrun.
  apply bind_inv in Hrun as ([body in2] & Hb & Hrun). cbn beta iota in Hrun.
  apply bind_inv in Hrun as ([k childIn] & Hk & Hrun). cbn beta iota in Hrun.
  apply bind_inv in Hrun as ([result p1] & Hres & Hrun). cbn beta iota in Hrun.
  rewrite putIfAbsent_interned in Hrun.
  exists digest, in1, result, p1. split; [exact Hd|].
  split; [|congruence].
  destruct (k >? 1).
  - unfold deserializeMultipleItemChildArray in Hres.
    apply bind_inv in Hres as ([cs out] & _ & Hres). injection Hres as _ <-. reflexivity.
  - destruct (k =? 1).
    + apply bind_inv in Hres as ([x out] & _ & Hres). injection Hres as _ <-. reflexivity.
    + injection Hres as _ <-. reflexivity.
Qed.


End References.


(** Resolution depends on earlier reads: a branch referring to a digest for which the blob
    carries no frame is refused in a fresh process, and accepted once
    another read has left a node under that digest in the cache. *)
Lemma references_counterexample :
  outcome (deserialize byte_deserialize true (mkProcess [] ∅) dangling_blob)
  = Throw NullPointerException
  /\ outcome (deserialize byte_deserialize true
                (after (mkProcess [] ∅)
                       (deserialize byte_deserialize true (mkProcess [] ∅) pq_blob))
                dangling_blob)
     = Ok (mkNestedSet STABLE_ORDER (Arr 1%nat),
           [[Elem 112; Elem 113]; [Arr 0%nat; Elem 114]], []).
Proof. split; vm_compute; reflexivity. Qed.

(** ** Empty nested sets *)

Section Empty.

Context {T : Type}.
Variable T_equals : T -> T -> bool.
Variable ctx_serialize : T -> res (list Z).
Variable ctx_deserialize : list Z -> res (T * list Z).

Lemma serialize_empty (h : heap T) (fuel : nat) (order : Order) :
  serialize T_equals ctx_serialize true (S fuel) h (emptySet order) = Ok (empty_blob order).
Proof. destruct order; vm_compute; reflexivity. Qed.

Lemma deserialize_empty_blob (p : @Process T) (order : Order) :
  deserialize ctx_deserialize true p (empty_blob order)
  = Ok (createNestedSet order
          (interned p (MD5.md5 (Wire.writeInt32NoTag 0)) EMPTY_CHILDREN).1,
        (interned p (MD5.md5 (Wire.writeInt32NoTag 0)) EMPTY_CHILDREN).2, []).
Proof.
  unfold deserialize, empty_blob. cbn [negb].
  rewrite readInt32_writeInt32 by lia. rewrite bind_Ok. cbn beta iota.
  change (1 >=? 1) with true. cbn [checkState]. rewrite bind_Ok.
  rewrite orderCodec_round_trip, bind_Ok. cbn beta iota.
  change (Z.to_nat 1) with 1%nat. cbn [deserializeLoop].
  unfold deserializeOneNestedSet.
  rewrite readBytes_writeByteArray by (rewrite md5_length; lia).
  rewrite bind_Ok. cbn beta iota.
  rewrite <- (app_nil_r (Wire.writeByteArrayNoTag (Wire.writeInt32NoTag 0))).
  rewrite readBytes_writeByteArray by (simpl; lia).
  rewrite bind_Ok. cbn beta iota.
  change (Wire.readInt32 (Wire.writeInt32NoTag 0)) with (@Ok (Z * list Z) (0, [])).
  rewrite bind_Ok. cbn beta iota.
  change (0 >? 1) with false. change (0 =? 1) with false. cbv iota.
  rewrite bind_Ok. rewrite putIfAbsent_interned, bind_Ok.
  destruct (interned p _ _) as [node p']. reflexivity.
Qed.

(** X2.  [serialize] does not refuse an empty nested
    set: it writes the count 1, the order and one frame whose body is the
    varint 0; [deserialize] accepts that blob and returns the empty set of
    the transmitted order, provided the cache does not hold another node
    under the digest of that frame. *)
Theorem empty_set_round_trip (h : heap T) (fuel : nat) (order : Order) (p : @Process T) :
  digestToChild p !! MD5.md5 (Wire.writeInt32NoTag 0) = None
  \/ digestToChild p !! MD5.md5 (Wire.writeInt32NoTag 0) = Some EMPTY_CHILDREN ->
  serialize T_equals ctx_serialize true (S fuel) h (emptySet order) = Ok (empty_blob order)
  /\ empty_blob order
     = Wire.writeInt32NoTag 1 ++ orderCodec.serialize order
         ++ Wire.writeByteArrayNoTag (MD5.md5 (Wire.writeInt32NoTag 0))
         ++ Wire.writeByteArrayNoTag (Wire.writeInt32NoTag 0)
  /\ outcome (deserialize ctx_deserialize true p (empty_blob order))
     = Ok (emptySet order, objects p, []).
Proof.
  intros Hcache. split; [apply serialize_empty|]. split; [reflexivity|].
  rewrite deserialize_empty_blob. unfold interned.
  destruct Hcache as [-> | ->]; reflexivity.
Qed.

End Empty.

Lemma empty_set_round_trip_witness :
  serialize Z.eqb byte_serialize true 1 [] (emptySet LINK_ORDER) = Ok (empty_blob LINK_ORDER)
  /\ empty_blob LINK_ORDER
     = Wire.writeInt32NoTag 1 ++ orderCodec.serialize LINK_ORDER
         ++ Wire.writeByteArrayNoTag (MD5.md5 (Wire.writeInt32NoTag 0))
         ++ Wire.writeByteArrayNoTag (Wire.writeInt32NoTag 0)
  /\ outcome (deserialize byte_deserialize true (mkProcess [] ∅) (empty_blob LINK_ORDER))
     = Ok (emptySet LINK_ORDER, [], []).
Proof.
  apply (empty_set_round_trip Z.eqb byte_serialize byte_deserialize [] 0 LINK_ORDER
           (mkProcess [] ∅)).
  left. exact (lookup_empty _).
Defined.

Example empty_blob_bytes :
  empty_blob LINK_ORDER
  = [1; 2; 16; 147; 184; 133; 173; 254; 13; 160; 137; 205; 246; 52; 144; 79; 213; 159;
     113; 1; 0].
Proof. vm_compute. reflexivity. Qed.

(** The proviso on the cache is needed: after a blob that labels a leaf with the digest of
    the EMPTY frame has been read, the blob written for an empty set reads
    back as that leaf. *)
Lemma empty_set_counterexample :
  serialize Z.eqb byte_serialize true 1 [] (emptySet LINK_ORDER) = Ok (empty_blob LINK_ORDER)
  /\ outcome (deserialize byte_deserialize true
                (after (mkProcess [] ∅)
                       (deserialize byte_deserialize true (mkProcess [] ∅) mislabelled_leaf))
                (empty_blob LINK_ORDER))
     = Ok (mkNestedSet LINK_ORDER (Elem 7), [], []).
Proof. split; vm_compute; reflexivity. Qed.

(** ** The writer, frame by frame *)

Section Writer.

Context {T : Type}.
Variable T_equals : T -> T -> bool.
Variable ctx_serialize : T -> res (list Z).
Variable h : heap T.

Lemma serializeAll_framesOf topo : forall ctd,
  serializeAll ctx_serialize h topo ctd
  = ('(fs, _) ← framesOf ctx_serialize h topo ctd; Ok (flat_map frame_bytes fs)).
Proof.
  induction topo as [|x topo IH]; intros ctd; [reflexivity|].
  cbn [serializeAll framesOf]. unfold serializeOneNestedSet.
  destruct (serializeBody ctx_serialize h x ctd) as [bs|e]; [|reflexivity].
  rewrite !bind_Ok.
  destruct (2 ^ 31 <=? Z.of_nat (length bs)); [reflexivity|].
  rewrite bind_Ok. cbn beta iota. rewrite IH.
  destruct (framesOf ctx_serialize h topo _) as [[fs final]|e]; reflexivity.
Qed.

Lemma framesOf_written topo : forall ctd fs final,
  framesOf ctx_serialize h topo ctd = Ok (fs, final) ->
  map node fs = topo
  /\ Forall (frame_written ctx_serialize h) fs
  /\ forall i f b d,
      fs !! i = Some f -> table f !! b = Some d ->
      ctd !! b = Some d
      \/ exists j g, (j < i)%nat /\ fs !! j = Some g /\ node g = Arr b /\ digest g = d.
Proof.
  induction topo as [|x topo IH]; intros ctd fs final Hrun.
  - injection Hrun as <- <-. split; [reflexivity|]. split; [constructor|].
    intros i f b d Hi. discriminate.
  - cbn [framesOf] in Hrun.
    destruct (serializeBody ctx_serialize h x ctd) as [bs|e] eqn:Hbody; [|discriminate].
    rewrite bind_Ok in Hrun.
    destruct (Z.leb_spec (2 ^ 31) (Z.of_nat (length bs))) as [|Hlen]; [discriminate|].
    apply bind_inv in Hrun as ([fs' final'] & Hrest & Hrun). injection Hrun as <- <-.
    destruct (IH _ _ _ Hrest) as (Hnodes & Hall & Htbl).
    split; [cbn; rewrite Hnodes; reflexivity|]. split.
    + constructor; [|exact Hall]. repeat split; assumption.
    + intros i f b d Hi Hb. destruct i as [|i].
      * injection Hi as <-. left. exact Hb.
      * cbn in Hi. destruct (Htbl i f b d Hi Hb) as [Hput|(j & g & Hj & Hg & Hn & Hd)].
        -- destruct x as [| |a]; cbn [put] in Hput; try (left; exact Hput).
           destruct (decide (a = b)) as [->|Hne].
           ++ rewrite lookup_insert_eq in Hput. injection Hput as <-.
              right. exists O, (mkFrame (Arr b) ctd (MD5.md5 bs) bs).
              split; [lia|]. repeat split.
           ++ rewrite lookup_insert_ne in Hput by exact Hne. left. exact Hput.
        -- right. exists (S j), g. split; [lia|]. split; [exact Hg|]. split; assumption.
Qed.
End Writer.

(** ** Reading what was written *)

Section ReadWritten.

Context {T : Type}.
Variable ctx_serialize : T -> res (list Z).
Variable ctx_deserialize : list Z -> res (T * list Z).
Variable h : heap T.

Lemma serializeEntries_length tbl cs : forall bytes,
  serializeEntries ctx_serialize tbl cs = Ok bytes -> (length cs <= length bytes)%nat.
Proof.
  induction cs as [|c cs IH]; intros bytes Hrun; [simpl; lia|].
  cbn [serializeEntries] in Hrun.
  apply bind_inv in Hrun as (e & He & Hrun).
  apply bind_inv in Hrun as (r & Hr & Hrun). injection Hrun as <-.
  apply IH in Hr. rewrite length_app.
  assert (1 <= length e)%nat; [|simpl; lia].
  destruct c as [|x|b]; cbn [serializeEntry] in He; [discriminate| |].
  - apply bind_inv in He as (bs & _ & He). injection He as <-. simpl. lia.
  - apply bind_inv in He as (d & _ & He). injection He as <-. simpl. lia.
Qed.

Lemma readBool_flag (b : bool) (l : list Z) :
  Wire.readBool ((if b then 1 else 0) :: l) = Ok (b, l).
Proof. destruct b; reflexivity. Qed.

Lemma readEntries_written tbl cache cs : forall bytes rest,
  serializeEntries ctx_serialize tbl cs = Ok bytes ->
  table_in_cache tbl cache ->
  (forall e, Elem e ∈ cs -> round_trips ctx_serialize ctx_deserialize e) ->
  readEntries ctx_deserialize (length cs) cache (bytes ++ rest)
  = Ok (map (resolve tbl cache) cs, rest).
Proof.
  induction cs as [|c cs IH]; intros bytes rest Hrun Htbl Hrt.
  - injection Hrun as <-. reflexivity.
  - cbn [serializeEntries] in Hrun.
    apply bind_inv in Hrun as (e & He & Hrun).
    apply bind_inv in Hrun as (r & Hr & Hrun). injection Hrun as <-.
    specialize (IH r rest Hr Htbl (fun x Hx => Hrt x (list_elem_of_further _ _ _ Hx))).
    cbn [length readEntries map].
    destruct c as [|x|b]; cbn [serializeEntry] in He; [discriminate| |].
    + apply bind_inv in He as (bs & Hbs & He). injection He as <-.
      rewrite <- !app_assoc. cbn [app]. rewrite (readBool_flag false), bind_Ok.
      cbn beta iota.
      rewrite (Hrt x (list_elem_of_here _ _) bs (r ++ rest) Hbs), !bind_Ok. cbn beta iota.
      rewrite IH, bind_Ok. reflexivity.
    + apply bind_inv in He as (d & Hd & He). injection He as <-.
      destruct (tbl !! b) as [d'|] eqn:Hb; [|discriminate]. injection Hd as ->.
      destruct (Htbl b d Hb) as [Hlen [o Ho]].
      rewrite <- !app_assoc. cbn [app]. rewrite (readBool_flag true), bind_Ok.
      cbn beta iota.
      rewrite readBytes_writeByteArray by (rewrite Hlen; lia).
      rewrite bind_Ok. cbn beta iota. rewrite Ho. cbn [checkNotNull].
      rewrite !bind_Ok. cbn beta iota. rewrite IH, bind_Ok.
      cbn [resolve]. rewrite Hb. cbn. rewrite Ho. reflexivity.
Qed.

(** Reading the bytes of a written frame is [readFrame]. *)
Lemma deserializeOneNestedSet_written (p : @Process T) (f : @Frame T) rest :
  frame_written ctx_serialize h f ->
  table_in_cache (table f) (digestToChild p) ->
  well_formed_node ctx_serialize ctx_deserialize h (node f) ->
  deserializeOneNestedSet ctx_deserialize p (frame_bytes f ++ rest)
  = Ok (readFrame h p f, rest).
Proof.
  intros (Hbody & Hlen & Hdigest) Htbl Hwf.
  unfold deserializeOneNestedSet, frame_bytes.
  rewrite <- app_assoc, readBytes_writeByteArray by (rewrite Hdigest, md5_length; lia).
  rewrite bind_Ok. cbn beta iota.
  rewrite readBytes_writeByteArray by exact Hlen.
  rewrite bind_Ok. cbn beta iota.
  unfold readFrame, rebuild.
  destruct (node f) as [|x|a] eqn:Hnode; cbn [serializeBody] in Hbody.
  - injection Hbody as <-.
    change (Wire.readInt32 (Wire.writeInt32NoTag 0)) with (@Ok (Z * list Z) (0, [])).
    rewrite bind_Ok. cbn beta iota.
    change (0 >? 1) with false. change (0 =? 1) with false. cbv iota.
    rewrite bind_Ok. apply putIfAbsent_interned.
  - unfold serializeSingleItemChildArray in Hbody.
    apply bind_inv in Hbody as (bs & Hbs & Hbody).
    assert (body f = Wire.writeInt32NoTag 1 ++ bs) as ->
        by (injection Hbody as <-; reflexivity).
    rewrite readInt32_writeInt32 by lia. rewrite bind_Ok. cbn beta iota.
    change (1 >? 1) with false. change (1 =? 1) with true. cbv iota.
    rewrite <- (app_nil_r bs), (Hwf bs [] Hbs), !bind_Ok. cbn beta iota.
    apply putIfAbsent_interned.
  - destruct Hwf as [Hsize Hrt].
    unfold serializeMultiItemChildArray in Hbody.
    apply bind_inv in Hbody as (r & Hr & Hbody).
    assert (body f = Wire.writeInt32NoTag (Z.of_nat (length (array h a))) ++ r) as Hb
        by (injection Hbody as <-; reflexivity).
    rewrite Hb in Hlen |- *.
    pose proof (serializeEntries_length _ _ _ Hr) as Hle.
    rewrite length_app in Hlen.
    rewrite readInt32_writeInt32 by lia. rewrite bind_Ok. cbn beta iota.
    destruct (Z.gtb_spec (Z.of_nat (length (array h a))) 1) as [_|]; [|lia].
    unfold deserializeMultipleItemChildArray. rewrite Nat2Z.id.
    rewrite <- (app_nil_r r), (readEntries_written _ _ _ _ _ Hr Htbl Hrt), !bind_Ok.
    cbn beta iota. apply putIfAbsent_interned.
Qed.

Lemma table_in_cache_put (tbl : gmap addr (list Z)) (p : @Process T) (f : @Frame T) :
  table_in_cache tbl (digestToChild p) ->
  digest f = MD5.md5 (body f) ->
  table_in_cache (put tbl (node f) (digest f)) (digestToChild (readFrame h p f).2).
Proof.
  intros Htbl Hdigest b d Hb. unfold readFrame.
  pose proof (interned_cache (rebuild h p f).2 (digest f) (rebuild h p f).1)
    as (Hnode & Hsub & _).
  assert (digestToChild (rebuild h p f).2 = digestToChild p) as Hsame.
  { unfold rebuild. destruct (node f); reflexivity. }
  rewrite Hsame in Hsub.
  assert (tbl !! b = Some d -> length d = 16%nat /\
            is_Some (digestToChild (interned (rebuild h p f).2 (digest f)
                                             (rebuild h p f).1).2 !! d)) as Hold.
  { intros Hb'. destruct (Htbl b d Hb') as [Hl [o Ho]]. split; [exact Hl|].
    exists o. eapply lookup_weaken; eassumption. }
  destruct (node f) as [| |a]; cbn [put] in Hb; try (apply Hold, Hb).
  destruct (decide (a = b)) as [->|Hne].
  - rewrite lookup_insert_eq in Hb. injection Hb as <-.
    split; [rewrite Hdigest; apply md5_length|]. eexists. exact Hnode.
  - rewrite lookup_insert_ne in Hb by exact Hne. apply Hold, Hb.
Qed.

(** Reading the frames written for a list of nodes is [readFrames]. *)
Lemma deserializeLoop_written topo : forall ctd fs final (p : @Process T) children rest,
  framesOf ctx_serialize h topo ctd = Ok (fs, final) ->
  table_in_cache ctd (digestToChild p) ->
  Forall (well_formed_node ctx_serialize ctx_deserialize h) topo ->
  deserializeLoop ctx_deserialize (length fs) children p (flat_map frame_bytes fs ++ rest)
  = Ok (readFrames h children p fs, rest)
  /\ table_in_cache final (digestToChild (readFrames h children p fs).2).
Proof.
  induction topo as [|x topo IH]; intros ctd fs final p children rest Hrun Htbl Hwf.
  - injection Hrun as <- <-. split; [reflexivity|exact Htbl].
  - cbn [framesOf] in Hrun.
    destruct (serializeBody ctx_serialize h x ctd) as [bs|e] eqn:Hbody; [|discriminate].
    rewrite bind_Ok in Hrun.
    destruct (Z.leb_spec (2 ^ 31) (Z.of_nat (length bs))) as [|Hlen]; [discriminate|].
    apply bind_inv in Hrun as ([fs' final'] & Hrest & Hrun). injection Hrun as <- <-.
    apply Forall_cons in Hwf as [Hx Hwf].
    set (f := mkFrame x ctd (MD5.md5 bs) bs).
    cbn [length flat_map deserializeLoop readFrames].
    rewrite <- app_assoc.
    rewrite (deserializeOneNestedSet_written p f);
      [|repeat split; assumption|exact Htbl|exact Hx].
    rewrite bind_Ok.
    destruct (readFrame h p f) as [c p1] eqn:Hf. cbn beta iota. cbn [fst snd].
    apply (IH _ _ _ p1 (Some c) rest Hrest); [|exact Hwf].
    pose proof (table_in_cache_put ctd p f Htbl eq_refl) as Hput.
    rewrite Hf in Hput. exact Hput.
Qed.

End ReadWritten.

(** ** Writing, then reading *)

Section WriteRead.

Context {T : Type}.
Variable T_equals : T -> T -> bool.
Variable ctx_serialize : T -> res (list Z).
Variable ctx_deserialize : list Z -> res (T * list Z).
Variable h : heap T.

(** The shape of what [serialize] writes. *)
Lemma serialize_inv fuel (obj : NestedSet T) out :
  serialize T_equals ctx_serialize true fuel h obj = Ok out ->
  exists topo fs final,
    getTopologicallySortedChildren T_equals fuel h obj = Ok topo
    /\ framesOf ctx_serialize h topo ∅ = Ok (fs, final)
    /\ out = Wire.writeInt32NoTag (Z.of_nat (length topo))
               ++ orderCodec.serialize (getOrder obj) ++ flat_map frame_bytes fs.
Proof.
  unfold serialize. cbn [negb]. intros Hrun.
  apply bind_inv in Hrun as (topo & Htopo & Hrun).
  apply bind_inv in Hrun as (frames & Hframes & Hrun). injection Hrun as <-.
  rewrite serializeAll_framesOf in Hframes.
  apply bind_inv in Hframes as ([fs final] & Hfs & Hframes). injection Hframes as <-.
  exists topo, fs, final. auto.
Qed.

Lemma serialize_frames fuel (obj : NestedSet T) topo fs final :
  getTopologicallySortedChildren T_equals fuel h obj = Ok topo ->
  framesOf ctx_serialize h topo ∅ = Ok (fs, final) ->
  serialize T_equals ctx_serialize true fuel h obj
  = Ok (Wire.writeInt32NoTag (Z.of_nat (length topo))
          ++ orderCodec.serialize (getOrder obj) ++ flat_map frame_bytes fs).
Proof.
  intros Htopo Hfs. unfold serialize. cbn [negb].
  rewrite Htopo, bind_Ok, serializeAll_framesOf, Hfs. reflexivity.
Qed.

Lemma readFrames_snoc (children : option (Object T)) (p : @Process T) fs f :
  readFrames h children p (fs ++ [f])
  = (Some (readFrame h (readFrames h children p fs).2 f).1,
     (readFrame h (readFrames h children p fs).2 f).2).
Proof.
  revert children p. induction fs as [|g fs IH]; intros children p; [reflexivity|].
  cbn [app readFrames]. apply IH.
Qed.

Lemma readFrames_children (children : option (Object T)) (p : @Process T) fs :
  fs <> [] -> is_Some (readFrames h children p fs).1.
Proof.
  destruct fs as [|f fs _] using rev_ind; [congruence|]. intros _.
  rewrite readFrames_snoc. eexists. reflexivity.
Qed.

(** Reading a written blob is reading its frames: the read succeeds, stops
    where the blob ends, and returns the node the last frame yields. *)
Lemma deserialize_written fuel (obj : NestedSet T) topo fs final (p : @Process T) rest :
  getTopologicallySortedChildren T_equals fuel h obj = Ok topo ->
  framesOf ctx_serialize h topo ∅ = Ok (fs, final) ->
  Z.of_nat (length topo) < 2 ^ 31 ->
  (forall x, reachable h (rawChildren obj) x ->
             well_formed_node ctx_serialize ctx_deserialize h x) ->
  exists c,
    (readFrames h None p fs).1 = Some c
    /\ deserialize ctx_deserialize true p
         (Wire.writeInt32NoTag (Z.of_nat (length topo))
            ++ orderCodec.serialize (getOrder obj) ++ flat_map frame_bytes fs ++ rest)
       = Ok (createNestedSet (getOrder obj) c, (readFrames h None p fs).2, rest).
Proof.
  intros Htopo Hfs Hcount Hwf.
  destruct (dfs_root T_equals h fuel _ _ Htopo) as [(added & Heq & _ & Hroot & Hreach) _].
  simpl in Heq. subst added.
  destruct (framesOf_written ctx_serialize h topo ∅ fs final Hfs) as (Hnodes & _ & _).
  assert (length fs = length topo) as Hlen by (rewrite <- Hnodes, length_map; reflexivity).
  assert (fs <> []) as Hne.
  { intros ->. simpl in Hnodes. subst topo. apply elem_of_nil in Hroot. exact Hroot. }
  destruct (readFrames_children None p fs Hne) as [c Hc]. exists c. split; [exact Hc|].
  unfold deserialize. cbn [negb].
  rewrite readInt32_writeInt32 by lia. rewrite bind_Ok. cbn beta iota.
  destruct (Z.geb_spec (Z.of_nat (length topo)) 1) as [_|Hlt];
    [|destruct fs; [congruence|simpl in Hlen; lia]].
  cbn [checkState]. rewrite bind_Ok, orderCodec_round_trip, bind_Ok. cbn beta iota.
  rewrite Nat2Z.id, <- Hlen.
  destruct (deserializeLoop_written ctx_serialize ctx_deserialize h topo ∅ fs final
              p None rest Hfs) as [-> _].
  - intros b d Hb. rewrite lookup_empty in Hb. discriminate.
  - apply Forall_forall. intros x Hx. apply Hwf, Hreach, Hx.
  - rewrite bind_Ok. destruct (readFrames h None p fs) as [children p'].
    simpl in Hc. subst children. reflexivity.
Qed.

End WriteRead.

(** ** What a read does to the process, and reading again *)

Section ReadAgain.

Context {T : Type}.
Variable ctx_deserialize : list Z -> res (T * list Z).

Lemma readEntries_mono n : forall (cache cache' : gmap (list Z) (Object T)) buf r,
  readEntries ctx_deserialize n cache buf = Ok r ->
  cache ⊆ cache' ->
  readEntries ctx_deserialize n cache' buf = Ok r.
Proof.
  induction n as [|n IH]; intros cache cache' buf r Hrun Hsub; [exact Hrun|].
  cbn [readEntries] in *.
  apply bind_inv in Hrun as ([flag in1] & -> & Hrun). rewrite bind_Ok. cbn beta iota in *.
  apply bind_inv in Hrun as ([child in2] & Hchild & Hrun). cbn beta iota in Hrun.
  apply bind_inv in Hrun as ([cs in3] & Hcs & Hrun).
  assert ((if flag
           then '(digest, childCodedIn) ← Wire.readBytes in1;
                child ← checkNotNull (cache' !! digest); Ok (child, childCodedIn)
           else '(p, childCodedIn) ← ctx_deserialize in1; Ok (Elem p, childCodedIn))
          = Ok (child, in2)) as ->.
  { destruct flag; [|exact Hchild].
    apply bind_inv in Hchild as ([d in'] & -> & Hchild). rewrite bind_Ok.
    cbn beta iota in *.
    apply bind_inv in Hchild as (o & Ho & Hchild).
    destruct (cache !! d) as [o'|] eqn:Hd; [|discriminate]. injection Ho as ->.
    rewrite (lookup_weaken _ _ _ _ Hd Hsub). exact Hchild. }
  rewrite bind_Ok. cbn beta iota. rewrite (IH _ _ _ _ Hcs Hsub). exact Hrun.
Qed.

(** One frame: the cache and the arrays only grow, and the frame reads
    the same in every later state of the cache, yielding the same node
    without adding to the cache. *)
Lemma deserializeOneNestedSet_again (p p' : @Process T) codedIn c rest :
  deserializeOneNestedSet ctx_deserialize p codedIn = Ok (c, p', rest) ->
  digestToChild p ⊆ digestToChild p'
  /\ objects p `prefix_of` objects p'
  /\ forall q : @Process T,
      digestToChild p' ⊆ digestToChild q ->
      exists q', deserializeOneNestedSet ctx_deserialize q codedIn = Ok (c, q', rest)
                 /\ digestToChild q' = digestToChild q.
Proof.
  unfold deserializeOneNestedSet. intros Hrun.
  apply bind_inv in Hrun as ([d in1] & H1 & Hrun). cbn beta iota in Hrun.
  apply bind_inv in Hrun as ([b in2] & H2 & Hrun). cbn beta iota in Hrun.
  apply bind_inv in Hrun as ([k childIn] & H3 & Hrun). cbn beta iota in Hrun.
  apply bind_inv in Hrun as ([result p1] & Hres & Hrun). cbn beta iota in Hrun.
  rewrite putIfAbsent_interned in Hrun.
  assert (digestToChild p1 = digestToChild p /\ objects p `prefix_of` objects p1
          /\ forall q : @Process T,
              digestToChild p ⊆ digestToChild q ->
              exists result' q1,
                (if k >? 1
                 then deserializeMultipleItemChildArray ctx_deserialize q childIn k
                 else if k =? 1
                      then '(x, _) ← ctx_deserialize childIn; Ok (Elem x, q)
                      else Ok (EMPTY_CHILDREN, q)) = Ok (result', q1)
                /\ digestToChild q1 = digestToChild q) as (Hc1 & Ho1 & Hagain).
  { destruct (k >? 1).
    - unfold deserializeMultipleItemChildArray in *.
      apply bind_inv in Hres as ([cs out] & Hcs & Hres). injection Hres as _ <-.
      split; [reflexivity|]. split; [apply prefix_app_r; reflexivity|].
      intros q Hq. rewrite (readEntries_mono _ _ _ _ _ Hcs Hq), bind_Ok.
      eexists _, _. split; reflexivity.
    - destruct (k =? 1).
      + apply bind_inv in Hres as ([x out] & Hx & Hres). injection Hres as _ <-.
        split; [reflexivity|]. split; [reflexivity|]. intros q _.
        rewrite Hx, bind_Ok. eexists _, _. split; reflexivity.
      + injection Hres as _ <-. split; [reflexivity|]. split; [reflexivity|].
        intros q _. eexists _, _. split; reflexivity. }
  injection Hrun as Hint <-.
  pose proof (interned_cache p1 d result) as (Hnode & Hsub & Hobj).
  rewrite Hint in Hnode, Hsub, Hobj. cbn [fst snd] in Hnode, Hsub, Hobj.
  rewrite Hc1 in Hsub. rewrite <- Hobj in Ho1.
  split; [exact Hsub|]. split; [exact Ho1|].
  intros q Hq. rewrite H1, bind_Ok. cbn beta iota. rewrite H2, bind_Ok. cbn beta iota.
  rewrite H3, bind_Ok. cbn beta iota.
  destruct (Hagain q) as (result' & q1 & -> & Hq1); [etrans; eassumption|].
  rewrite bind_Ok. cbn beta iota. rewrite putIfAbsent_interned.
  unfold interned. rewrite Hq1, (lookup_weaken _ _ _ _ Hnode Hq).
  exists q1. split; [reflexivity|exact Hq1].
Qed.

Lemma deserializeLoop_again n : forall children (p p' : @Process T) codedIn c rest,
  deserializeLoop ctx_deserialize n children p codedIn = Ok (c, p', rest) ->
  digestToChild p ⊆ digestToChild p'
  /\ objects p `prefix_of` objects p'
  /\ forall q : @Process T,
      digestToChild p' ⊆ digestToChild q ->
      exists q', deserializeLoop ctx_deserialize n children q codedIn = Ok (c, q', rest)
                 /\ digestToChild q' = digestToChild q.
Proof.
  induction n as [|n IH]; intros children p p' codedIn c rest Hrun.
  - injection Hrun as <- <- <-. split; [reflexivity|]. split; [reflexivity|].
    intros q _. exists q. split; reflexivity.
  - cbn [deserializeLoop] in *.
    apply bind_inv in Hrun as ([[c1 p1] in1] & Hone & Hrun). cbn beta iota in Hrun.
    destruct (deserializeOneNestedSet_again _ _ _ _ _ Hone) as (Hs1 & Ho1 & Hagain1).
    destruct (IH _ _ _ _ _ _ Hrun) as (Hs2 & Ho2 & Hagain2).
    split; [etrans; eassumption|]. split; [etrans; eassumption|].
    intros q Hq.
    destruct (Hagain1 q) as (q1 & Hr1 & Hq1); [etrans; eassumption|].
    rewrite Hr1, bind_Ok. cbn beta iota.
    destruct (Hagain2 q1) as (q' & Hr2 & Hq'); [rewrite Hq1; exact Hq|].
    exists q'. split; [exact Hr2|]. congruence.
Qed.


(** X4.  Interner idempotence: once a blob has been read, reading it
    again, in any state whose cache still holds what the first read left,
    returns the same nested set, root node included, and adds nothing to
    the cache. *)
Theorem deserialize_again (p p' q : @Process T) codedIn (n : NestedSet T) rest :
  deserialize ctx_deserialize true p codedIn = Ok (n, p', rest) ->
  digestToChild p' ⊆ digestToChild q ->
  exists q', deserialize ctx_deserialize true q codedIn = Ok (n, q', rest)
             /\ digestToChild q' = digestToChild q.
Proof.
  unfold deserialize. cbn [negb]. intros Hrun Hq.
  apply bind_inv in Hrun as ([count in1] & H1 & Hrun). cbn beta iota in Hrun.
  apply bind_inv in Hrun as ([] & H2 & Hrun).
  apply bind_inv in Hrun as ([order in2] & H3 & Hrun). cbn beta iota in Hrun.
  apply bind_inv in Hrun as ([[c p1] in3] & Hloop & Hrun). cbn beta iota in Hrun.
  destruct c as [c|]; [|discriminate]. injection Hrun as <- <- <-.
  destruct (deserializeLoop_again _ _ _ _ _ _ _ Hloop) as (_ & _ & Hagain).
  destruct (Hagain q Hq) as (q' & Hloop' & Hq').
  exists q'. rewrite H1, bind_Ok. cbn beta iota. rewrite H2, bind_Ok, H3, bind_Ok.
  cbn beta iota. rewrite Hloop', bind_Ok.
  split; [reflexivity|exact Hq'].
Qed.

End ReadAgain.

Lemma pq_blob_read :
  deserialize byte_deserialize true (mkProcess [] ∅) pq_blob
  = Ok (mkNestedSet STABLE_ORDER (Arr 0%nat),
        after (mkProcess [] ∅) (deserialize byte_deserialize true (mkProcess [] ∅) pq_blob),
        []).
Proof. vm_compute. reflexivity. Qed.


Lemma deserialize_again_witness :
  exists q',
    deserialize byte_deserialize true
      (after (mkProcess [] ∅) (deserialize byte_deserialize true (mkProcess [] ∅) pq_blob))
      pq_blob
    = Ok (mkNestedSet STABLE_ORDER (Arr 0%nat), q', [])
    /\ digestToChild q'
       = digestToChild (after (mkProcess [] ∅)
                              (deserialize byte_deserialize true (mkProcess [] ∅) pq_blob)).
Proof.
  exact (deserialize_again byte_deserialize _ _ _ _ _ _ pq_blob_read (reflexivity _)).
Defined.

(** ** The read of a written blob, step by step *)

Section ReadSteps.

Context {T : Type}.
Variable ctx_serialize : T -> res (list Z).
Variable ctx_deserialize : list Z -> res (T * list Z).
Variable h : heap T.
Variable fs : list (@Frame T).
Variable p0 : @Process T.

Hypothesis Hblob : blob_frames ctx_serialize ctx_deserialize h fs.
Hypothesis Hnc : collision_free fs.

Lemma resolve_stable (tbl : gmap addr (list Z)) (cache cache' : gmap (list Z) (Object T)) cs :
  table_in_cache tbl cache -> cache ⊆ cache' ->
  map (resolve tbl cache) cs = map (resolve tbl cache') cs.
Proof.
  intros Htbl Hsub. apply map_ext. intros [| |b]; try reflexivity.
  cbn [resolve]. destruct (tbl !! b) as [d|] eqn:Hb; [|reflexivity]. cbn.
  destruct (Htbl b d Hb) as [_ [o Ho]].
  rewrite Ho, (lookup_weaken _ _ _ _ Ho Hsub). reflexivity.
Qed.

Lemma frame_settled_mono (p p' : @Process T) g :
  frame_settled h p0 p g ->
  table_in_cache (table g) (digestToChild p) ->
  digestToChild p ⊆ digestToChild p' ->
  objects p `prefix_of` objects p' ->
  frame_settled h p0 p' g.
Proof.
  intros [Hpre|(a & n & Hnode & Hcache & Hobj)] Htbl Hsub Hprefix; [left; exact Hpre|].
  right. exists a, n. split; [exact Hnode|]. split.
  - eapply lookup_weaken; eassumption.
  - rewrite <- (resolve_stable _ _ _ _ Htbl Hsub).
    eapply prefix_lookup_Some; eassumption.
Qed.

Lemma frame_digest_length f : f ∈ fs -> length (digest f) = 16%nat.
Proof.
  intros Hin. destruct Hblob as (Hw & _ & _).
  rewrite Forall_forall in Hw. destruct (Hw f Hin) as (_ & _ & ->). apply md5_length.
Qed.

Lemma refers_to_earlier done f todo b d :
  fs = done ++ f :: todo -> table f !! b = Some d ->
  exists g, g ∈ done /\ node g = Arr b /\ digest g = d.
Proof.
  intros Hfs Hb. destruct Hblob as (_ & Hearlier & _).
  destruct (Hearlier (length done) f b d) as (j & g & Hj & Hg & Hn & Hd); [|exact Hb|].
  - rewrite Hfs. apply list_lookup_middle. reflexivity.
  - exists g. split; [|auto]. apply list_elem_of_lookup. exists j.
    rewrite Hfs, lookup_app_l in Hg by exact Hj. exact Hg.
Qed.

Lemma done_in_cache done (p : @Process T) g :
  reading_invariant h p0 done p -> g ∈ done -> is_Some (digestToChild p !! digest g).
Proof.
  intros (Hsub & _ & Hsettled & _) Hin.
  destruct (Hsettled g Hin) as [[o Ho]|(a & n & _ & Hc & _)].
  - exists o. eapply lookup_weaken; eassumption.
  - eexists. exact Hc.
Qed.

Lemma table_in_cache_next done f todo (p : @Process T) :
  fs = done ++ f :: todo -> reading_invariant h p0 done p ->
  table_in_cache (table f) (digestToChild p).
Proof.
  intros Hfs Hinv b d Hb.
  destruct (refers_to_earlier done f todo b d Hfs Hb) as (g & Hg & _ & <-). split.
  - apply frame_digest_length. rewrite Hfs. apply elem_of_app. left. exact Hg.
  - eapply done_in_cache; eassumption.
Qed.

Lemma table_in_cache_done done todo (p : @Process T) g :
  fs = done ++ todo -> reading_invariant h p0 done p -> g ∈ done ->
  table_in_cache (table g) (digestToChild p).
Proof.
  intros Hfs Hinv Hg b d Hb.
  apply list_elem_of_split in Hg as (d1 & d2 & Hdone).
  destruct (refers_to_earlier d1 g (d2 ++ todo) b d) as (g' & Hg' & _ & <-);
    [rewrite Hfs, Hdone, <- app_assoc; reflexivity|exact Hb|].
  assert (g' ∈ done) as Hin by (rewrite Hdone; apply elem_of_app; left; exact Hg').
  split.
  - apply frame_digest_length. rewrite Hfs. apply elem_of_app. left. exact Hin.
  - eapply done_in_cache; eassumption.
Qed.

(** Two branches written with the same body resolve to the same entries. *)
Lemma same_body_entries (cache : gmap (list Z) (Object T)) f g a a' :
  f ∈ fs -> g ∈ fs -> node f = Arr a -> node g = Arr a' -> body f = body g ->
  table_in_cache (table f) cache -> table_in_cache (table g) cache ->
  map (resolve (table f) cache) (array h a) = map (resolve (table g) cache) (array h a').
Proof.
  intros Hf Hg Hnf Hng Hbody Htf Htg.
  destruct Hblob as (Hw & _ & Hwf). rewrite Forall_forall in Hw.
  destruct (Hw f Hf) as (Hbf & Hlf & _). destruct (Hw g Hg) as (Hbg & Hlg & _).
  destruct (Hwf f Hf) as [_ Hwff]. destruct (Hwf g Hg) as [_ Hwfg].
  rewrite Hnf in Hbf, Hwff. rewrite Hng in Hbg, Hwfg.
  cbn [serializeBody] in Hbf, Hbg. unfold serializeMultiItemChildArray in Hbf, Hbg.
  apply bind_inv in Hbf as (r & Hr & Hbf). apply bind_inv in Hbg as (r' & Hr' & Hbg).
  assert (body f = Wire.writeInt32NoTag (Z.of_nat (length (array h a))) ++ r) as Ef
      by (injection Hbf as <-; reflexivity).
  assert (body g = Wire.writeInt32NoTag (Z.of_nat (length (array h a'))) ++ r') as Eg
      by (injection Hbg as <-; reflexivity).
  pose proof (serializeEntries_length _ _ _ _ Hr) as Hle.
  pose proof (serializeEntries_length _ _ _ _ Hr') as Hle'.
  rewrite Ef, length_app in Hlf. rewrite Eg, length_app in Hlg.
  assert (Wire.readInt32 (body f) = Ok (Z.of_nat (length (array h a)), r)) as Rf
      by (rewrite Ef; apply readInt32_writeInt32; lia).
  assert (Wire.readInt32 (body g) = Ok (Z.of_nat (length (array h a')), r')) as Rg
      by (rewrite Eg; apply readInt32_writeInt32; lia).
  rewrite Hbody, Rg in Rf. injection Rf as Hlen ->. apply Nat2Z.inj in Hlen.
  destruct Hwff as [_ Hrtf]. destruct Hwfg as [_ Hrtg].
  pose proof (readEntries_written ctx_serialize ctx_deserialize _ cache _ _ [] Hr Htf Hrtf)
    as Pf.
  pose proof (readEntries_written ctx_serialize ctx_deserialize _ cache _ _ [] Hr' Htg Hrtg)
    as Pg.
  rewrite Hlen, Pf in Pg. injection Pg as <-. reflexivity.
Qed.

(** Reading one more frame keeps the invariant. *)
Lemma readFrame_invariant done f todo (p : @Process T) :
  fs = done ++ f :: todo ->
  reading_invariant h p0 done p ->
  reading_invariant h p0 (done ++ [f]) (readFrame h p f).2.
Proof.
  intros Hfs Hinv.
  pose proof (table_in_cache_next done f todo p Hfs Hinv) as Htf.
  assert (f ∈ fs) as Hf by (rewrite Hfs; apply elem_of_app; right; left).
  assert (forall g, g ∈ done -> g ∈ fs) as Hdone
      by (intros g Hg; rewrite Hfs; apply elem_of_app; left; exact Hg).
  assert (forall g, g ∈ done -> table_in_cache (table g) (digestToChild p)) as Htd
      by (intros g Hg; apply (table_in_cache_done done (f :: todo) p g Hfs Hinv Hg)).
  destruct Hinv as (Hsub & Hprefix & Hsettled & Horigin).
  destruct Hblob as (_ & _ & Hwf). destruct (Hwf f Hf) as [Harr _].
  destruct (node f) as [| |a] eqn:Hnode; try contradiction.
  unfold readFrame, rebuild. rewrite Hnode. cbn [fst snd]. unfold interned.
  cbn [objects digestToChild].
  set (L := map (resolve (table f) (digestToChild p)) (array h a)).
  destruct (digestToChild p !! digest f) as [old|] eqn:Hd; cbn [fst snd].
  - split; [exact Hsub|]. split; [apply prefix_app_r, Hprefix|]. split.
    + intros g Hg. apply elem_of_app in Hg as [Hg|Hg].
      * apply (frame_settled_mono p); [apply Hsettled, Hg|apply Htd, Hg|reflexivity|].
        cbn. apply prefix_app_r. reflexivity.
      * apply list_elem_of_singleton in Hg. subst g.
        destruct (Horigin (digest f)) as [Hpre|(g & Hg & Hdg)]; [eauto|left; exact Hpre|].
        destruct (Hsettled g Hg) as [Hpre|(a' & n & Hng & Hcg & Hog)];
          [left; rewrite <- Hdg; exact Hpre|].
        right. exists a, n. split; [exact Hnode|]. cbn [objects digestToChild].
        split; [rewrite <- Hdg; exact Hcg|].
        rewrite (same_body_entries (digestToChild p) f g a a' Hf (Hdone g Hg) Hnode Hng);
          [|apply Hnc; auto|exact Htf|apply Htd, Hg].
        apply lookup_app_l_Some. exact Hog.
    + intros d Hsome. destruct (Horigin d Hsome) as [Hpre|(g & Hg & Hdg)];
        [left; exact Hpre|].
      right. exists g. split; [apply elem_of_app; left; exact Hg|exact Hdg].
  - assert (digestToChild p ⊆ <[digest f := Arr (length (objects p))]> (digestToChild p))
      as Hins by (apply insert_subseteq; exact Hd).
    split; [etrans; eassumption|]. split; [apply prefix_app_r, Hprefix|]. split.
    + intros g Hg. apply elem_of_app in Hg as [Hg|Hg].
      * apply (frame_settled_mono p); [apply Hsettled, Hg|apply Htd, Hg|exact Hins|].
        cbn. apply prefix_app_r. reflexivity.
      * apply list_elem_of_singleton in Hg. subst g.
        right. exists a, (length (objects p)). split; [exact Hnode|].
        cbn [objects digestToChild]. split; [apply lookup_insert_eq|].
        rewrite <- (resolve_stable _ _ _ _ Htf Hins).
        apply list_lookup_middle. reflexivity.
    + intros d Hsome. cbn [digestToChild] in Hsome.
      destruct (decide (d = digest f)) as [->|Hne].
      * right. exists f. split; [|reflexivity].
        apply elem_of_app. right. left.
      * rewrite lookup_insert_ne in Hsome by congruence.
        destruct (Horigin d Hsome) as [Hpre|(g & Hg & Hdg)]; [left; exact Hpre|].
        right. exists g. split; [apply elem_of_app; left; exact Hg|exact Hdg].
Qed.

Lemma readFrames_invariant todo : forall done (p : @Process T) children,
  fs = done ++ todo ->
  reading_invariant h p0 done p ->
  reading_invariant h p0 fs (readFrames h children p todo).2.
Proof.
  induction todo as [|f todo IH]; intros done p children Hfs Hinv.
  - rewrite app_nil_r in Hfs. subst done. exact Hinv.
  - cbn [readFrames]. apply (IH (done ++ [f])).
    + rewrite <- app_assoc. exact Hfs.
    + exact (readFrame_invariant done f todo p Hfs Hinv).
Qed.

Lemma reading_invariant_start : reading_invariant h p0 [] p0.
Proof.
  split; [reflexivity|]. split; [reflexivity|]. split.
  - intros f Hf. apply elem_of_nil in Hf. contradiction.
  - intros d Hd. left. exact Hd.
Qed.

End ReadSteps.

(** ** Structural equality after the round trip *)

Section Structure.

Context {T : Type}.
Variable ctx_serialize : T -> res (list Z).
Variable ctx_deserialize : list Z -> res (T * list Z).
Variable h : heap T.

Lemma same_structure_mono (h1 h2 : heap T) :
  h1 `prefix_of` h2 ->
  forall x y, same_structure h h1 x y -> same_structure h h2 x y.
Proof.
  intros Hprefix.
  refine (fix IH x y (H : same_structure h h1 x y) {struct H} : same_structure h h2 x y :=
            match H with
            | same_empty _ _ => same_empty _ _
            | same_elem _ _ e => same_elem _ _ e
            | same_array _ _ a a' cs cs' Ha Ha' Hall =>
                same_array _ _ a a' cs cs' Ha (prefix_lookup_Some _ _ _ _ Ha' Hprefix)
                  ((fix go l l' (F : Forall2 (same_structure h h1) l l') {struct F}
                      : Forall2 (same_structure h h2) l l' :=
                      match F with
                      | List.Forall2_nil _ => List.Forall2_nil _
                      | List.Forall2_cons _ _ Hxy Hrest =>
                          List.Forall2_cons _ _ (IH _ _ Hxy) (go _ _ Hrest)
                      end) cs cs' Hall)
            end).
Qed.

Lemma serializeEntries_entries tbl cs : forall bytes,
  serializeEntries ctx_serialize tbl cs = Ok bytes ->
  forall c, c ∈ cs ->
            match c with
            | EMPTY_CHILDREN => False
            | Elem _ => True
            | Arr b => is_Some (tbl !! b)
            end.
Proof.
  induction cs as [|c0 cs IH]; intros bytes Hrun c Hin;
    [apply elem_of_nil in Hin; contradiction|].
  cbn [serializeEntries] in Hrun.
  apply bind_inv in Hrun as (e & He & Hrun).
  apply bind_inv in Hrun as (r & Hr & _).
  apply elem_of_cons in Hin as [->|Hin]; [|exact (IH _ Hr c Hin)].
  destruct c0 as [| |b]; cbn [serializeEntry] in He; [discriminate|exact I|].
  destruct (tbl !! b); [eauto|discriminate].
Qed.

(** Once all frames are read, the cache holds under each frame's digest a
    node with the structure of the frame's node. *)
Lemma frames_same_structure (fs : list (@Frame T)) (p0 p' : @Process T) :
  blob_frames ctx_serialize ctx_deserialize h fs ->
  cache_consistent h p0 fs ->
  reading_invariant h p0 fs p' ->
  forall i f, fs !! i = Some f ->
              exists o, digestToChild p' !! digest f = Some o
                        /\ same_structure h (objects p') (node f) o.
Proof.
  intros (Hw & Hearlier & Hwf) Hcons (Hsub & Hprefix & Hsettled & _).
  induction i as [i IH] using lt_wf_ind. intros f Hi.
  assert (f ∈ fs) as Hf by (apply list_elem_of_lookup; eauto).
  destruct (Hsettled f Hf) as [[o Ho]|(a & n & Hnode & Hcache & Hobj)].
  - exists o. split; [eapply lookup_weaken; eassumption|].
    apply (same_structure_mono (objects p0)); [exact Hprefix|]. apply Hcons; assumption.
  - exists (Arr n). split; [exact Hcache|]. rewrite Hnode.
    rewrite Forall_forall in Hw. destruct (Hw f Hf) as (Hbody & _ & _).
    destruct (Hwf f Hf) as [_ Hwff]. rewrite Hnode in Hbody, Hwff.
    destruct Hwff as [Hsize _].
    cbn [serializeBody] in Hbody. unfold serializeMultiItemChildArray in Hbody.
    apply bind_inv in Hbody as (r & Hr & _).
    assert (h !! a = Some (array h a)) as Ha.
    { unfold array in *. destruct (h !! a); [reflexivity|simpl in Hsize; lia]. }
    apply (same_array _ _ a n (array h a) _ Ha Hobj).
    change (map ?g ?l) with (g <$> l). apply Forall2_fmap_r, Forall_Forall2_diag.
    apply Forall_forall. intros c Hc.
    pose proof (serializeEntries_entries _ _ _ Hr c Hc) as Hentry.
    destruct c as [|e|b]; [contradiction|constructor|].
    destruct Hentry as [d Hd]. unfold compose, resolve. rewrite Hd. cbn.
    destruct (Hearlier i f b d Hi Hd) as (j & g & Hj & Hg & Hng & Hdg).
    destruct (IH j Hj g Hg) as (o & Ho & Hsame).
    rewrite Hdg in Ho. rewrite Ho. cbn. rewrite <- Hng. exact Hsame.
Qed.

End Structure.

(** ** The round trip *)

Section RoundTrip.

Context {T : Type}.
Variable T_equals : T -> T -> bool.
Variable ctx_serialize : T -> res (list Z).
Variable ctx_deserialize : list Z -> res (T * list Z).
Variable h : heap T.

Lemma reachable_is_array (root x : Object T) :
  is_array root -> reachable h root x -> is_array x.
Proof.
  intros Hroot Hreach. apply rtc_inv_r in Hreach as [<-|(y & _ & Hr)]; [exact Hroot|].
  destruct y, x; simpl in Hr; try contradiction; exact I.
Qed.

Lemma dfs_non_array fuel (root : Object T) l :
  ~ is_array root -> dfs T_equals fuel h [] root = Ok l -> l = [root].
Proof.
  intros Hna Hrun. destruct fuel as [|fuel]; [discriminate|].
  destruct root as [| |a]; [| |simpl in Hna; tauto]; injection Hrun as <-; reflexivity.
Qed.

Lemma rawChildren_createNestedSet order (c : Object T) :
  rawChildren (createNestedSet order c) = c
  /\ getOrder (createNestedSet order c) = order.
Proof. destruct c; split; reflexivity. Qed.

(** The frames written for the sort of an array root are the frames of a
    blob. *)
Lemma blob_frames_of_sort fuel (root : Object T) topo fs final :
  is_array root ->
  dfs T_equals fuel h [] root = Ok topo ->
  framesOf ctx_serialize h topo ∅ = Ok (fs, final) ->
  (forall x, reachable h root x -> well_formed_node ctx_serialize ctx_deserialize h x) ->
  blob_frames ctx_serialize ctx_deserialize h fs.
Proof.
  intros Harr Htopo Hfs Hwf.
  destruct (dfs_root T_equals h fuel _ _ Htopo) as [(added & Heq & _ & _ & Hreach) _].
  simpl in Heq. subst added.
  destruct (framesOf_written ctx_serialize h topo ∅ fs final Hfs) as (Hnodes & Hw & Htbl).
  split; [exact Hw|]. split.
  - intros i f b d Hi Hb. destruct (Htbl i f b d Hi Hb) as [Hempty|Hex]; [|exact Hex].
    rewrite lookup_empty in Hempty. discriminate.
  - intros f Hf.
    assert (node f ∈ topo) as Hin.
    { rewrite <- Hnodes. apply list_elem_of_In, in_map, list_elem_of_In, Hf. }
    split; [apply (reachable_is_array root); auto|auto].
Qed.

(** The node the read of all frames returns is the cache entry under the
    digest of the last frame. *)
Lemma readFrames_last (p : @Process T) fs f :
  (readFrames h None p (fs ++ [f])).1
  = digestToChild (readFrames h None p (fs ++ [f])).2 !! digest f.
Proof.
  rewrite readFrames_snoc. cbn [fst snd]. unfold readFrame.
  symmetry. apply interned_cache.
Qed.


End RoundTrip.

(** ** Checking the hypotheses on concrete nested sets *)

Lemma byte_round_trips (e : Z) : round_trips byte_serialize byte_deserialize e.
Proof. intros bs rest [= <-]. reflexivity. Qed.

Lemma collision_free_distinct {T : Type} (fs : list (@Frame T)) :
  NoDup (map digest fs) -> collision_free fs.
Proof.
  intros Hnd f g Hf Hg Hd.
  apply list_elem_of_lookup in Hf as [i Hi]. apply list_elem_of_lookup in Hg as [j Hj].
  assert (map digest fs !! i = Some (digest f)) as Hi'
      by (change (map digest fs) with (digest <$> fs); rewrite list_lookup_fmap, Hi;
          reflexivity).
  assert (map digest fs !! j = Some (digest f)) as Hj'
      by (change (map digest fs) with (digest <$> fs); rewrite list_lookup_fmap, Hj, Hd;
          reflexivity).
  pose proof (NoDup_lookup _ _ _ _ Hnd Hi' Hj'). subst j. congruence.
Qed.

Lemma bottom_up_reachable {T : Type} (h : heap T) (a : addr) (x : Object T) :
  bottom_up h = true -> (a < length h)%nat -> reachable h (Arr a) x ->
  exists b, x = Arr b /\ (b < length h)%nat.
Proof.
  intros Hb Ha Hreach. apply rtc_inv_r in Hreach as [<-|(y & _ & Hr)]; [eauto|].
  destruct y as [| |c], x as [| |b]; simpl in Hr; try contradiction.
  exists b. split; [reflexivity|]. unfold array in Hr.
  destruct (h !! c) as [l|] eqn:Hc; simpl in Hr; [|apply elem_of_nil in Hr; contradiction].
  pose proof (bottom_up_from_lookup h 0 c l b Hb Hc Hr).
  apply lookup_lt_Some in Hc. lia.
Qed.

Lemma bottom_up_well_formed {T : Type} (ctx_serialize : T -> res (list Z))
    (ctx_deserialize : list Z -> res (T * list Z)) (h : heap T) (a : addr) :
  bottom_up h = true -> (a < length h)%nat ->
  Forall (fun l => (2 <= length l)%nat) h ->
  (forall e, round_trips ctx_serialize ctx_deserialize e) ->
  forall x, reachable h (Arr a) x -> well_formed_node ctx_serialize ctx_deserialize h x.
Proof.
  intros Hb Ha Hsize Hrt x Hreach.
  destruct (bottom_up_reachable h a x Hb Ha Hreach) as (b & -> & Hlt).
  apply lookup_lt_is_Some in Hlt as [l Hl]. cbn [well_formed_node]. unfold array.
  rewrite Hl. cbn. split; [|intros e _; apply Hrt].
  rewrite Forall_lookup in Hsize. exact (Hsize b l Hl).
Qed.

Lemma shared_frames_written :
  framesOf byte_serialize shared [Arr 0%nat; Arr 1%nat] ∅ = Ok (shared_frames, shared_table).
Proof. vm_compute. reflexivity. Qed.

Lemma shared_well_formed x :
  reachable shared (rawChildren shared_set) x ->
  well_formed_node byte_serialize byte_deserialize shared x.
Proof.
  apply bottom_up_well_formed;
    [reflexivity|simpl; lia|repeat constructor|exact byte_round_trips].
Qed.

Lemma shared_collision_free : collision_free shared_frames.
Proof.
  apply collision_free_distinct. apply (bool_decide_unpack _). vm_compute. exact I.
Qed.


(** ** Sharing *)

Section Sharing.

Context {T : Type}.
Variable T_equals : T -> T -> bool.
Variable ctx_serialize : T -> res (list Z).
Variable ctx_deserialize : list Z -> res (T * list Z).
Variable h : heap T.

Lemma framesOf_final_other topo : forall ctd fs final a,
  framesOf ctx_serialize h topo ctd = Ok (fs, final) ->
  Arr a ∉ topo -> final !! a = ctd !! a.
Proof.
  induction topo as [|x topo IH]; intros ctd fs final a Hrun Hnot.
  - injection Hrun as _ <-. reflexivity.
  - cbn [framesOf] in Hrun.
    apply bind_inv in Hrun as (bs & _ & Hrun).
    destruct (2 ^ 31 <=? Z.of_nat (length bs)); [discriminate|].
    apply bind_inv in Hrun as ([fs' final'] & Hrest & Hrun). injection Hrun as _ <-.
    rewrite (IH _ _ _ a Hrest) by (intros Hin; apply Hnot; right; exact Hin).
    destruct x as [| |b]; cbn [put]; try reflexivity.
    apply lookup_insert_ne. intros ->. apply Hnot. left.
Qed.

Lemma framesOf_final topo : forall ctd fs final,
  framesOf ctx_serialize h topo ctd = Ok (fs, final) ->
  NoDup topo ->
  forall f a, f ∈ fs -> node f = Arr a -> final !! a = Some (digest f).
Proof.
  induction topo as [|x topo IH]; intros ctd fs final Hrun Hnd f a Hf Hnode.
  - injection Hrun as <- _. apply elem_of_nil in Hf. contradiction.
  - cbn [framesOf] in Hrun.
    apply bind_inv in Hrun as (bs & _ & Hrun).
    destruct (2 ^ 31 <=? Z.of_nat (length bs)); [discriminate|].
    apply bind_inv in Hrun as ([fs' final'] & Hrest & Hrun). injection Hrun as <- <-.
    apply NoDup_cons in Hnd as [Hnot Hnd].
    apply elem_of_cons in Hf as [->|Hf]; [|exact (IH _ _ _ Hrest Hnd f a Hf Hnode)].
    cbn [node digest] in *. subst x.
    rewrite (framesOf_final_other _ _ _ _ a Hrest Hnot). cbn [put].
    apply lookup_insert_eq.
Qed.


End Sharing.


(** The shared sub-graph, written and read in a fresh process: one array
    for S, referred to twice by the root. *)
Example shared_read :
  outcome (r ← serialize Z.eqb byte_serialize true 3 shared shared_set;
           deserialize byte_deserialize true (mkProcess [] ∅) r)
  = Ok (mkNestedSet STABLE_ORDER (Arr 1%nat),
        [[Elem 112; Elem 113]; [Arr 0%nat; Arr 0%nat; Elem 114]], []).
Proof. vm_compute. reflexivity. Qed.

(** ** The written blob *)

Section Blob.

Context {T : Type}.
Variable T_equals : T -> T -> bool.
Variable ctx_serialize : T -> res (list Z).
Variable ctx_deserialize : list Z -> res (T * list Z).
Variable h : heap T.

(** X5.  What [serialize] writes: the number of distinct children nodes
    reachable from the root, the ordinal of the order, then one frame per
    such node, each node after the nodes it refers to.  A frame is the
    length-prefixed MD5 of its body followed by the length-prefixed body;
    the body is the encoding of the node alone, and a digest written
    inside a body for an entry is the digest of an earlier frame, the one
    of the array that entry refers to. *)
Theorem serialize_format fuel (obj : NestedSet T) out :
  serialize T_equals ctx_serialize true fuel h obj = Ok out ->
  exists fs final,
    framesOf ctx_serialize h (map node fs) ∅ = Ok (fs, final)
    /\ out = Wire.writeInt32NoTag (Z.of_nat (length fs))
               ++ orderCodec.serialize (getOrder obj) ++ flat_map frame_bytes fs
    /\ NoDup (map node fs)
    /\ (forall x, x ∈ map node fs <-> reachable h (rawChildren obj) x)
    /\ topologically_sorted h (map node fs)
    /\ Forall (frame_written ctx_serialize h) fs
    /\ forall i f b d,
        fs !! i = Some f -> table f !! b = Some d ->
        exists j g, (j < i)%nat /\ fs !! j = Some g /\ node g = Arr b /\ digest g = d.
Proof.
  intros Hrun.
  destruct (serialize_inv T_equals ctx_serialize h fuel obj out Hrun)
    as (topo & fs & final & Htopo & Hfs & ->).
  destruct (dfs_root T_equals h fuel _ _ Htopo)
    as [(added & Heq & [Hnd Hs] & Hroot & Hreach) _].
  simpl in Heq. subst added.
  destruct (framesOf_written ctx_serialize h topo ∅ fs final Hfs) as (Hnodes & Hw & Htbl).
  exists fs, final. rewrite Hnodes.
  split; [exact Hfs|]. split.
  { rewrite <- Hnodes, length_map. reflexivity. }
  split; [exact Hnd|]. split.
  { intros x. split; [apply Hreach|].
    intros Hx. exact (sorted_set_closed h topo (rawChildren obj) x Hs Hroot Hx). }
  split; [exact Hs|]. split; [exact Hw|].
  intros i f b d Hi Hb. destruct (Htbl i f b d Hi Hb) as [Hempty|Hex]; [|exact Hex].
  rewrite lookup_empty in Hempty. discriminate.
Qed.


End Blob.

Lemma shared_serialized :
  serialize Z.eqb byte_serialize true 3 shared shared_set
  = Ok (Wire.writeInt32NoTag 2 ++ orderCodec.serialize STABLE_ORDER
          ++ flat_map frame_bytes shared_frames).
Proof.
  apply (serialize_frames Z.eqb byte_serialize shared 3 shared_set
           [Arr 0%nat; Arr 1%nat] shared_frames shared_table);
    [reflexivity|exact shared_frames_written].
Qed.

Lemma serialize_format_witness :
  exists fs final,
    framesOf byte_serialize shared (map node fs) ∅ = Ok (fs, final)
    /\ Wire.writeInt32NoTag 2 ++ orderCodec.serialize STABLE_ORDER
         ++ flat_map frame_bytes shared_frames
       = Wire.writeInt32NoTag (Z.of_nat (length fs))
           ++ orderCodec.serialize (getOrder shared_set) ++ flat_map frame_bytes fs
    /\ NoDup (map node fs)
    /\ (forall x, x ∈ map node fs <-> reachable shared (rawChildren shared_set) x)
    /\ topologically_sorted shared (map node fs)
    /\ Forall (frame_written byte_serialize shared) fs
    /\ forall i f b d,
        fs !! i = Some f -> table f !! b = Some d ->
        exists j g, (j < i)%nat /\ fs !! j = Some g /\ node g = Arr b /\ digest g = d.
Proof.
  exact (serialize_format Z.eqb byte_serialize shared 3 shared_set _ shared_serialized).
Defined.


(** ** What the writer reads, and how it fails *)

Section WriterReads.

Context {T : Type}.
Variable T_equals : T -> T -> bool.
Variable ctx_serialize : T -> res (list Z).

Lemma forEach_ext (v1 v2 : list (Object T) -> Object T -> res (list (Object T))) cs :
  (forall sets c, c ∈ cs -> v1 sets c = v2 sets c) ->
  forall sets, forEach v1 sets cs = forEach v2 sets cs.
Proof.
  induction cs as [|c cs IH]; intros Hext sets; [reflexivity|].
  cbn [forEach]. rewrite (Hext sets c) by left.
  destruct (v2 sets c); [|reflexivity].
  apply IH. intros s c' Hc'. apply Hext. right. exact Hc'.
Qed.

(** The sort only reads the arrays reachable from the node it visits. *)
Lemma dfs_agree (h1 h2 : heap T) fuel : forall sets x,
  (forall a, reachable h1 x (Arr a) -> h1 !! a = h2 !! a) ->
  dfs T_equals fuel h1 sets x = dfs T_equals fuel h2 sets x.
Proof.
  induction fuel as [|fuel IH]; intros sets x Hagree; [reflexivity|].
  cbn [dfs]. destruct (contains T_equals sets x); [reflexivity|].
  destruct x as [| |a]; try reflexivity.
  assert (array h1 a = array h2 a) as Harr
      by (unfold array; rewrite (Hagree a (rtc_refl _ _)); reflexivity).
  rewrite <- Harr. f_equal. apply forEach_ext. intros s c Hc.
  destruct c as [| |b]; try reflexivity.
  apply IH. intros a' Ha'. apply Hagree.
  eapply rtc_l; [|exact Ha']. exact Hc.
Qed.

Lemma serializeAll_agree (h1 h2 : heap T) topo : forall ctd,
  (forall a, Arr a ∈ topo -> h1 !! a = h2 !! a) ->
  serializeAll ctx_serialize h1 topo ctd = serializeAll ctx_serialize h2 topo ctd.
Proof.
  induction topo as [|x topo IH]; intros ctd Hagree; [reflexivity|].
  cbn [serializeAll]. unfold serializeOneNestedSet.
  assert (serializeBody ctx_serialize h1 x ctd = serializeBody ctx_serialize h2 x ctd) as ->.
  { destruct x as [| |a]; try reflexivity. cbn [serializeBody]. unfold array.
    rewrite (Hagree a) by left. reflexivity. }
  destruct (serializeBody ctx_serialize h2 x ctd) as [bs|e]; [|reflexivity].
  rewrite !bind_Ok. destruct (2 ^ 31 <=? Z.of_nat (length bs)); [reflexivity|].
  rewrite !bind_Ok. cbn beta iota. rewrite IH; [reflexivity|].
  intros a Ha. apply Hagree. right. exact Ha.
Qed.

(** X9.  The bytes written for a nested set depend on nothing but the
    arrays reachable from its root: two invocations of [serialize], in two
    states of the heap that agree on those arrays and with whatever stack
    each of them has, write the same bytes when both return. *)
Theorem serialize_reads_reachable_only (h1 h2 : heap T) fuel1 fuel2
    (obj : NestedSet T) out1 out2 :
  (forall a, reachable h1 (rawChildren obj) (Arr a) -> h1 !! a = h2 !! a) ->
  serialize T_equals ctx_serialize true fuel1 h1 obj = Ok out1 ->
  serialize T_equals ctx_serialize true fuel2 h2 obj = Ok out2 ->
  out1 = out2.
Proof.
  unfold serialize, getTopologicallySortedChildren. cbn [negb]. intros Hagree H1 H2.
  apply bind_inv in H1 as (topo1 & Ht1 & H1). apply bind_inv in H2 as (topo2 & Ht2 & H2).
  apply (dfs_fuel_mono T_equals h1 fuel1 (max fuel1 fuel2)) in Ht1; [|lia].
  apply (dfs_fuel_mono T_equals h2 fuel2 (max fuel1 fuel2)) in Ht2; [|lia].
  rewrite (dfs_agree h1 h2 _ _ _ Hagree), Ht2 in Ht1. injection Ht1 as <-.
  destruct (dfs_root T_equals h2 _ _ _ Ht2) as [(added & Heq & _ & _ & Hreach2) _].
  rewrite <- (dfs_agree h1 h2 _ _ _ Hagree) in Ht2.
  destruct (dfs_root T_equals h1 _ _ _ Ht2) as [(added1 & Heq1 & _ & _ & Hreach) _].
  simpl in Heq1. subst added1.
  rewrite (serializeAll_agree h1 h2 topo2 ∅) in H1
    by (intros a Ha; apply Hagree, Hreach, Ha).
  destruct (serializeAll ctx_serialize h2 topo2 ∅); [|discriminate].
  rewrite bind_Ok in H1, H2. congruence.
Qed.

(** The digests of the arrays a frame refers to are in the table when the
    frame is written: [checkNotNull] never fails in the writer's loop. *)
Lemma serializeEntries_throws (ctd : gmap addr (list Z)) cs e :
  (forall b, Arr b ∈ cs -> is_Some (ctd !! b)) ->
  serializeEntries ctx_serialize ctd cs = Throw e ->
  e = SerializationException \/ exists x, ctx_serialize x = Throw e.
Proof.
  induction cs as [|c cs IH]; intros Hin Hrun; [discriminate|].
  cbn [serializeEntries] in Hrun.
  destruct (serializeEntry ctx_serialize ctd c) as [bs|e0] eqn:He.
  - rewrite bind_Ok in Hrun.
    destruct (serializeEntries ctx_serialize ctd cs) as [r|e1] eqn:Hr; [discriminate|].
    injection Hrun as <-. apply IH; [|reflexivity].
    intros b Hb. apply Hin. right. exact Hb.
  - injection Hrun as <-. destruct c as [|x|b]; cbn [serializeEntry] in He.
    + injection He as <-. left. reflexivity.
    + destruct (ctx_serialize x) as [bs|e1] eqn:Hx; [discriminate|].
      injection He as <-. right. eauto.
    + destruct (Hin b) as [d Hd]; [left|]. rewrite Hd in He. discriminate.
Qed.

Lemma serializeAll_throws (h : heap T) todo : forall ctd e,
  (forall i x b, todo !! i = Some x -> refs h x (Arr b) ->
                 is_Some (ctd !! b) \/ exists j, (j < i)%nat /\ todo !! j = Some (Arr b)) ->
  serializeAll ctx_serialize h todo ctd = Throw e ->
  e = OutOfMemoryError \/ e = SerializationException \/ exists x, ctx_serialize x = Throw e.
Proof.
  induction todo as [|x todo IH]; intros ctd e Hpre Hrun; [discriminate|].
  cbn [serializeAll] in Hrun. unfold serializeOneNestedSet in Hrun.
  destruct (serializeBody ctx_serialize h x ctd) as [bs|e0] eqn:Hbody.
  - rewrite bind_Ok in Hrun.
    destruct (2 ^ 31 <=? Z.of_nat (length bs)); [injection Hrun as <-; auto|].
    rewrite bind_Ok in Hrun. cbn beta iota in Hrun.
    destruct (serializeAll ctx_serialize h todo _) as [r|e1] eqn:Hrest; [discriminate|].
    injection Hrun as <-. eapply IH; [clear IH Hrest|exact Hrest].
    intros i y b Hi Hr.
    destruct (Hpre (S i) y b Hi Hr) as [[d Hd]|(j & Hj & Hjx)].
    + left. destruct x as [| |a]; cbn [put]; eauto.
      destruct (decide (a = b)) as [->|Hne];
        [rewrite lookup_insert_eq|rewrite lookup_insert_ne by exact Hne]; eauto.
    + destruct j as [|j].
      * injection Hjx as ->. left. cbn [put]. rewrite lookup_insert_eq. eauto.
      * right. exists j. split; [lia|exact Hjx].
  - injection Hrun as <-. right.
    destruct x as [|y|a]; cbn [serializeBody] in Hbody; [discriminate| |].
    + unfold serializeSingleItemChildArray in Hbody.
      destruct (ctx_serialize y) as [bs|e1] eqn:Hy; [discriminate|].
      injection Hbody as <-. right. eauto.
    + unfold serializeMultiItemChildArray in Hbody.
      destruct (serializeEntries ctx_serialize ctd (array h a)) as [r|e1] eqn:Hr;
        [discriminate|].
      injection Hbody as <-. apply (serializeEntries_throws ctd (array h a)); [|exact Hr].
      intros b Hb. destruct (Hpre O (Arr a) b eq_refl Hb) as [Hd|(j & Hj & _)];
        [exact Hd|lia].
Qed.


End WriterReads.

Lemma serialize_reads_reachable_only_witness :
  Wire.writeInt32NoTag 2 ++ orderCodec.serialize STABLE_ORDER
    ++ flat_map frame_bytes shared_frames
  = shared_blob.
Proof.
  apply (serialize_reads_reachable_only Z.eqb byte_serialize
           shared (shared ++ [[Elem 1; Elem 2]]) 3 7 shared_set).
  - intros a Ha.
    destruct (bottom_up_reachable shared 1 (Arr a) eq_refl ltac:(simpl; lia) Ha)
      as (b & [= ->] & Hb).
    symmetry. apply lookup_app_l. exact Hb.
  - exact shared_serialized.
  - vm_compute. reflexivity.
Defined.


(** ** The cache decides; one-entry branches *)

Section Interning.

Context {T : Type}.
Variable ctx_serialize : T -> res (list Z).
Variable ctx_deserialize : list Z -> res (T * list Z).

(** X11.  A frame never replaces a cached node.  When the cache holds a
    node under the digest a frame declares, the frame yields that node,
    whatever its own body was parsed to, and the cache is left as it was;
    otherwise the node built from the body is installed under the
    declared digest and returned.  The digest is not compared with the
    body in either case. *)
Theorem cached_node_wins (p p' : @Process T) frame c rest d in1 :
  deserializeOneNestedSet ctx_deserialize p frame = Ok (c, p', rest) ->
  Wire.readBytes frame = Ok (d, in1) ->
  match digestToChild p !! d with
  | Some old => c = old /\ digestToChild p' = digestToChild p
  | None => digestToChild p' = <[d := c]> (digestToChild p)
  end.
Proof.
  intros Hrun Hd.
  apply deserializeOneNestedSet_inv in Hrun
      as (d' & in' & result & p1 & Hd' & Hcache & Hint).
  rewrite Hd in Hd'. injection Hd' as <- <-.
  unfold interned in Hint. rewrite Hcache in Hint.
  destruct (digestToChild p !! d) as [old|].
  - injection Hint as -> ->. auto.
  - injection Hint as -> ->. reflexivity.
Qed.

(** X12.  A branch with a single entry does not come back as a branch.
    [serializeMultiItemChildArray] writes the count 1, the entry flag and
    the element; the reader takes the count 1 for a leaf and hands the
    flag byte together with the element's bytes to the payload codec. *)
Theorem single_entry_branch_read_as_leaf (h : heap T) (p : @Process T) (f : @Frame T)
    a e bs rest :
  node f = Arr a -> array h a = [Elem e] ->
  frame_written ctx_serialize h f ->
  ctx_serialize e = Ok bs ->
  body f = Wire.writeInt32NoTag 1 ++ 0 :: bs
  /\ deserializeOneNestedSet ctx_deserialize p (frame_bytes f ++ rest)
     = ('(x, _) ← ctx_deserialize (0 :: bs); Ok (interned p (digest f) (Elem x), rest)).
Proof.
  intros Hnode Harr (Hbody & Hlen & Hdigest) Hbs.
  rewrite Hnode in Hbody. cbn [serializeBody] in Hbody. rewrite Harr in Hbody.
  unfold serializeMultiItemChildArray in Hbody. cbn [serializeEntries serializeEntry] in Hbody.
  rewrite Hbs, !bind_Ok in Hbody.
  assert (body f = Wire.writeInt32NoTag 1 ++ 0 :: bs) as Hb.
  { injection Hbody as <-. cbn [length app Wire.writeBoolNoTag].
    rewrite app_nil_r. reflexivity. }
  split; [exact Hb|].
  unfold deserializeOneNestedSet, frame_bytes.
  rewrite <- app_assoc, readBytes_writeByteArray by (rewrite Hdigest, md5_length; lia).
  rewrite bind_Ok. cbn beta iota.
  rewrite readBytes_writeByteArray by exact Hlen.
  rewrite bind_Ok. cbn beta iota. rewrite Hb.
  rewrite readInt32_writeInt32 by lia. rewrite bind_Ok. cbn beta iota.
  change (1 >? 1) with false. change (1 =? 1) with true. cbv iota.
  destruct (ctx_deserialize (0 :: bs)) as [[x out]|err]; [|reflexivity].
  rewrite !bind_Ok. cbn beta iota. apply putIfAbsent_interned.
Qed.

End Interning.

Lemma cached_node_wins_witness :
  match digestToChild misled !! MD5.md5 (Wire.writeInt32NoTag 0) with
  | Some old => Elem 7 = old /\ digestToChild misled = digestToChild misled
  | None => digestToChild misled
            = <[MD5.md5 (Wire.writeInt32NoTag 0) := Elem 7]> (digestToChild misled)
  end.
Proof.
  apply (cached_node_wins byte_deserialize misled misled empty_frame_bytes (Elem 7) []
           (MD5.md5 (Wire.writeInt32NoTag 0))
           (Wire.writeByteArrayNoTag (Wire.writeInt32NoTag 0))).
  - vm_compute. reflexivity.
  - vm_compute. reflexivity.
Defined.

Lemma single_entry_branch_read_as_leaf_witness :
  body single_entry_frame = Wire.writeInt32NoTag 1 ++ 0 :: [5]
  /\ deserializeOneNestedSet byte_deserialize (mkProcess [] ∅)
       (frame_bytes single_entry_frame ++ [42])
     = ('(x, _) ← byte_deserialize (0 :: [5]);
        Ok (interned (mkProcess [] ∅) (digest single_entry_frame) (Elem x), [42])).
Proof.
  apply (single_entry_branch_read_as_leaf byte_serialize byte_deserialize single_entry
           (mkProcess [] ∅) single_entry_frame 0%nat 5 [5] [42]).
  - reflexivity.
  - reflexivity.
  - split; [reflexivity|]. split; [simpl; lia|]. vm_compute. reflexivity.
  - reflexivity.
Defined.

(** ** The stack the sort needs *)

Section StackDepth.

Context {T : Type}.
Variable T_equals : T -> T -> bool.
Variable h : heap T.
Variable rank : addr -> nat.

Hypothesis Hrank : forall a b, Arr b ∈ array h a -> (rank b < rank a)%nat.

Lemma dfs_within_rank n : forall a sets,
  (rank a < n)%nat -> exists l, dfs T_equals n h sets (Arr a) = Ok l.
Proof.
  induction n as [|n IH]; intros a sets Hlt; [lia|].
  cbn [dfs]. destruct (contains T_equals sets (Arr a)); [eauto|].
  edestruct (forEach_total
               (fun sets child => match child with
                                  | Arr _ => dfs T_equals n h sets child
                                  | _ => Ok sets
                                  end) (array h a)) as [l ->].
  - intros c Hc s. destruct c as [| |b]; eauto.
    apply IH. specialize (Hrank a b Hc). lia.
  - rewrite bind_Ok. eauto.
Qed.

(** X13.  [dfs] is recursive, and the stack it needs is bounded by the
    nesting depth of the set, not by its size: when every array has a
    rank above the ranks of the arrays it refers to, the sort of a root
    of rank r returns within r + 1 nested calls. *)
Theorem sort_stack_depth (order : Order) (a : addr) :
  exists l, getTopologicallySortedChildren T_equals (S (rank a)) h
              (mkNestedSet order (Arr a)) = Ok l.
Proof.
  unfold getTopologicallySortedChildren. cbn [rawChildren].
  apply dfs_within_rank. lia.
Qed.

End StackDepth.

Lemma sort_stack_depth_witness :
  exists l, getTopologicallySortedChildren Z.eqb 4 diamond
              (mkNestedSet STABLE_ORDER (Arr 3%nat)) = Ok l.
Proof.
  apply (sort_stack_depth Z.eqb diamond (fun a => a) ltac:(
           intros a b Hin; unfold array in Hin;
           destruct (diamond !! a) as [l|] eqn:Hl; simpl in Hin;
           [exact (bottom_up_from_lookup diamond 0 a l b eq_refl Hl Hin)
           |apply elem_of_nil in Hin; contradiction]) STABLE_ORDER 3%nat).
Defined.

(** ** Sharing across blobs *)

Section CrossBlob.

Context {T : Type}.
Variable T_equals : T -> T -> bool.
Variable ctx_serialize : T -> res (list Z).
Variable ctx_deserialize : list Z -> res (T * list Z).
Variable h : heap T.

(** The arrays left in the cache by the read of a list of frames whose
    digests the cache did not hold. *)
Lemma frames_images (fs : list (@Frame T)) (p0 : @Process T) children
    (dig : addr -> list Z) :
  blob_frames ctx_serialize ctx_deserialize h fs ->
  collision_free fs ->
  (forall f, f ∈ fs -> digestToChild p0 !! digest f = None) ->
  (forall f a, f ∈ fs -> node f = Arr a -> digest f = dig a) ->
  forall f a, f ∈ fs -> node f = Arr a ->
    digestToChild (readFrames h children p0 fs).2 !! dig a
    = Some (Arr (image_by dig (digestToChild (readFrames h children p0 fs).2) a))
    /\ objects (readFrames h children p0 fs).2
         !! image_by dig (digestToChild (readFrames h children p0 fs).2) a
       = Some (map (relocate (image_by dig (digestToChild (readFrames h children p0 fs).2)))
                   (array h a)).
Proof.
  intros Hblob Hnc Hfresh Hdig.
  pose proof (readFrames_invariant ctx_serialize ctx_deserialize h _ p0 Hblob Hnc
                fs [] p0 children eq_refl (reading_invariant_start h p0))
    as (_ & _ & Hsettled & _).
  set (p' := (readFrames h children p0 fs).2) in *.
  assert (forall f a, f ∈ fs -> node f = Arr a ->
            digestToChild p' !! dig a = Some (Arr (image_by dig (digestToChild p') a))
            /\ objects p' !! image_by dig (digestToChild p') a
               = Some (map (resolve (table f) (digestToChild p')) (array h a))) as Himage.
  { intros f a Hf Hnode.
    destruct (Hsettled f Hf) as [[o Ho]|(a' & n & Hn & Hcache & Hobj)];
      [rewrite Hfresh in Ho by exact Hf; discriminate|].
    rewrite Hnode in Hn. injection Hn as <-.
    rewrite (Hdig f a Hf Hnode) in Hcache.
    unfold image_by. rewrite Hcache. auto. }
  intros f a Hf Hnode. destruct (Himage f a Hf Hnode) as [Hc Ho].
  split; [exact Hc|]. rewrite Ho. f_equal.
  destruct Hblob as (Hw & Hearlier & _).
  rewrite Forall_forall in Hw. destruct (Hw f Hf) as (Hbody & _ & _).
  rewrite Hnode in Hbody. cbn [serializeBody] in Hbody.
  unfold serializeMultiItemChildArray in Hbody.
  apply bind_inv in Hbody as (r & Hr & _).
  apply map_ext_in. intros c Hin. apply list_elem_of_In in Hin.
  pose proof (serializeEntries_entries ctx_serialize _ _ _ Hr c Hin) as Hentry.
  destruct c as [|e|b]; [contradiction|reflexivity|].
  destruct Hentry as [d Hd]. cbn [resolve relocate]. rewrite Hd. cbn.
  apply list_elem_of_lookup in Hf as [i Hi].
  destruct (Hearlier i f b d Hi Hd) as (j & g & _ & Hg & Hng & Hdg).
  assert (g ∈ fs) as Hgin by (apply list_elem_of_lookup; eauto).
  destruct (Himage g b Hgin Hng) as [Hcache _].
  rewrite <- (Hdig g b Hgin Hng), Hdg in Hcache. rewrite Hcache. reflexivity.
Qed.

Lemma serializeEntries_ext (t1 t2 : gmap addr (list Z)) cs :
  (forall c, c ∈ cs -> serializeEntry ctx_serialize t1 c = serializeEntry ctx_serialize t2 c) ->
  serializeEntries ctx_serialize t1 cs = serializeEntries ctx_serialize t2 cs.
Proof.
  induction cs as [|c cs IH]; intros Hext; [reflexivity|].
  cbn [serializeEntries]. rewrite (Hext c) by left.
  rewrite IH; [reflexivity|]. intros c' Hc'. apply Hext. right. exact Hc'.
Qed.

(** The frames written for one array in two blobs have the same body,
    hence the same digest. *)
Lemma same_node_same_digest (fs1 fs2 : list (@Frame T)) :
  blob_frames ctx_serialize ctx_deserialize h fs1 ->
  blob_frames ctx_serialize ctx_deserialize h fs2 ->
  forall i f1 f2, fs1 !! i = Some f1 -> f2 ∈ fs2 -> node f1 = node f2 ->
                  digest f1 = digest f2.
Proof.
  intros (Hw1 & He1 & Ha1) (Hw2 & He2 & Ha2).
  rewrite Forall_forall in Hw1, Hw2.
  induction i as [i IH] using lt_wf_ind. intros f1 f2 Hi Hf2 Hnode.
  assert (f1 ∈ fs1) as Hf1 by (apply list_elem_of_lookup; eauto).
  destruct (Hw1 f1 Hf1) as (Hb1 & _ & ->). destruct (Hw2 f2 Hf2) as (Hb2 & _ & ->).
  f_equal. destruct (Ha1 f1 Hf1) as [Harr _].
  destruct (node f1) as [| |a] eqn:Hn1; try contradiction.
  rewrite <- Hnode in Hb2. cbn [serializeBody] in Hb1, Hb2.
  unfold serializeMultiItemChildArray in Hb1, Hb2.
  apply bind_inv in Hb1 as (r1 & Hr1 & Hb1). apply bind_inv in Hb2 as (r2 & Hr2 & Hb2).
  assert (serializeEntries ctx_serialize (table f1) (array h a)
          = serializeEntries ctx_serialize (table f2) (array h a)) as Heq.
  { apply serializeEntries_ext. intros c Hc.
    pose proof (serializeEntries_entries ctx_serialize _ _ _ Hr1 c Hc) as E1.
    pose proof (serializeEntries_entries ctx_serialize _ _ _ Hr2 c Hc) as E2.
    destruct c as [|e|b]; [contradiction|reflexivity|].
    destruct E1 as [d1 Hd1]. destruct E2 as [d2 Hd2].
    cbn [serializeEntry]. rewrite Hd1, Hd2.
    destruct (He1 i f1 b d1 Hi Hd1) as (j & g1 & Hj & Hg1 & Hng1 & <-).
    apply list_elem_of_lookup in Hf2 as [k Hk].
    destruct (He2 k f2 b d2 Hk Hd2) as (j2 & g2 & _ & Hg2 & Hng2 & <-).
    rewrite (IH j Hj g1 g2 Hg1); [reflexivity|apply list_elem_of_lookup; eauto|congruence]. }
  rewrite Heq, Hr2 in Hr1. injection Hr1 as ->. congruence.
Qed.

Lemma blob_frames_app (fs1 fs2 : list (@Frame T)) :
  blob_frames ctx_serialize ctx_deserialize h fs1 ->
  blob_frames ctx_serialize ctx_deserialize h fs2 ->
  blob_frames ctx_serialize ctx_deserialize h (fs1 ++ fs2).
Proof.
  intros (Hw1 & He1 & Ha1) (Hw2 & He2 & Ha2). split; [apply Forall_app; auto|]. split.
  - intros i f b d Hi Hb. apply lookup_app_Some in Hi as [Hi|[Hge Hi]].
    + destruct (He1 i f b d Hi Hb) as (j & g & Hj & Hg & Hrest).
      exists j, g. split; [exact Hj|]. split; [|exact Hrest].
      apply lookup_app_Some. left. exact Hg.
    + destruct (He2 _ f b d Hi Hb) as (j & g & Hj & Hg & Hrest).
      exists (length fs1 + j)%nat, g. split; [lia|]. split; [|exact Hrest].
      apply lookup_app_Some. right. split; [lia|].
      replace (length fs1 + j - length fs1)%nat with j by lia. exact Hg.
  - intros f Hf. apply elem_of_app in Hf as [Hf|Hf]; auto.
Qed.

Lemma readFrames_app (fs1 fs2 : list (@Frame T)) : forall c c' (p : @Process T),
  (readFrames h c p (fs1 ++ fs2)).2
  = (readFrames h c' (readFrames h c p fs1).2 fs2).2.
Proof.
  induction fs1 as [|f fs1 IH]; intros c c' p.
  - cbn [app readFrames snd]. destruct fs2 as [|g fs2]; reflexivity.
  - cbn [app readFrames]. apply IH.
Qed.

Lemma framesOf_final_inv topo : forall ctd fs final a d,
  framesOf ctx_serialize h topo ctd = Ok (fs, final) ->
  final !! a = Some d ->
  ctd !! a = Some d \/ exists f, f ∈ fs /\ node f = Arr a /\ digest f = d.
Proof.
  induction topo as [|x topo IH]; intros ctd fs final a d Hrun Hfinal.
  - injection Hrun as _ <-. left. exact Hfinal.
  - cbn [framesOf] in Hrun.
    apply bind_inv in Hrun as (bs & _ & Hrun).
    destruct (2 ^ 31 <=? Z.of_nat (length bs)); [discriminate|].
    apply bind_inv in Hrun as ([fs' final'] & Hrest & Hrun). injection Hrun as <- <-.
    destruct (IH _ _ _ a d Hrest Hfinal) as [Hput|(f & Hf & Hrest')].
    + destruct x as [| |b]; cbn [put] in Hput; try (left; exact Hput).
      destruct (decide (b = a)) as [->|Hne].
      * rewrite lookup_insert_eq in Hput. injection Hput as <-.
        right. eexists. split; [left|]. split; reflexivity.
      * rewrite lookup_insert_ne in Hput by exact Hne. left. exact Hput.
    + right. exists f. split; [right; exact Hf|exact Hrest'].
Qed.


End CrossBlob.

Lemma collision_check_sound {T : Type} (fs : list (@Frame T)) :
  collision_check fs = true -> collision_free fs.
Proof.
  unfold collision_check. rewrite forallb_forall. intros Hall f g Hf Hg Hd.
  specialize (Hall f (proj1 (list_elem_of_In _ _) Hf)).
  rewrite forallb_forall in Hall.
  specialize (Hall g (proj1 (list_elem_of_In _ _) Hg)).
  rewrite (bool_decide_eq_true_2 _ Hd) in Hall. cbn [implb] in Hall.
  apply bool_decide_eq_true_1 in Hall. exact Hall.
Qed.


(** The two blobs read one after the other: the second read builds an
    array for S again (address 2), drops it for the cached one (address
    0), and both roots refer to the array at address 0. *)
Example two_roots_read :
  outcome (b1 ← serialize Z.eqb byte_serialize true 3 two_roots
                   (mkNestedSet STABLE_ORDER (Arr 1%nat));
           b2 ← serialize Z.eqb byte_serialize true 3 two_roots
                   (mkNestedSet LINK_ORDER (Arr 2%nat));
           '(_, p1, _) ← deserialize byte_deserialize true (mkProcess [] ∅) b1;
           deserialize byte_deserialize true p1 b2)
  = Ok (mkNestedSet LINK_ORDER (Arr 3%nat),
        [[Elem 112; Elem 113]; [Arr 0%nat; Elem 1]; [Elem 112; Elem 113];
         [Elem 2; Arr 0%nat]], []).
Proof. vm_compute. reflexivity. Qed.
